(** * Curling match engine: a shallow embedding of [public/game.js]

    JavaScript numbers are modelled as real numbers ([R]): [Math.sqrt] is
    [sqrt], [Math.abs] is [Rabs], and the comparison operators become
    boolean tests decided by [Rlt_dec] / [Rle_dec].  Rounding of IEEE
    doubles is outside this model.  Objects that the code mutates in place
    (stones inside the [stones] array, the [GameManager] itself) are
    modelled by explicit state passing: a function returns the new stone,
    the new array or the new manager.

    The clock and the random generator are inputs: a handler that calls
    [Date.now()] takes the time as an argument [now], and [startEnd] takes
    the rough zones that [generateRoughZones()] would draw.  Drawing on the
    canvas, the DOM and the messages a peer sends are not part of the
    model; the messages it receives are ([handleRemoteAction]). *)

From Stdlib Require Import Reals Lra Lia ZArith List Bool Permutation Sorted.
From Stdlib Require String.
Import ListNotations.

Local Open Scope R_scope.

(** ** Comparisons on numbers *)

Definition Rltb (a b : R) : bool := if Rlt_dec a b then true else false.
Definition Rleb (a b : R) : bool := if Rle_dec a b then true else false.
Definition Rgtb (a b : R) : bool := Rltb b a.

Definition Rgeb (a b : R) : bool := Rleb b a.

(** ** Constants *)

Definition ICE_FRICTION : R := 984 / 1000.
Definition SWEPT_FRICTION : R := 998 / 1000.
Definition ROUGH_FRICTION : R := 96 / 100.
Definition MIN_VELOCITY : R := 6 / 100.
Definition STONE_RADIUS : R := 14.
Definition RESTITUTION : R := 85 / 100.
Definition FRICTION_DEGRADATION : R := 1 / 1000.
Definition SWEEP_RADIUS : R := 30.
Definition MAX_LAUNCH_SPEED : R := 10.
Definition MAX_SWEEP_ENERGY : R := 100.
Definition SWEEP_DRAIN_RATE : R := 15 / 10.
Definition AIM_TIME_LIMIT : R := 15000.
Definition FGZ_STONE_COUNT : Z := 4.

Record Sheet := mkSheet {
  sheetWidth : R; sheetLength : R; houseRadius : R; buttonRadius : R;
  innerRing : R; middleRing : R; hogLineFromEnd : R; hackFromEnd : R;
  houseCenterY : R; centerLineY : R }.

Definition SHEET : Sheet :=
  mkSheet 240 900 90 8 30 60 200 30 120 450.

(** ** Stones *)

(** Team identifiers: [0] is red, [1] is yellow.  Where the code uses [-1]
    for "no team" the model has [None]. *)
Inductive Team := Red | Yellow.

Definition team_eqb (a b : Team) : bool :=
  match a, b with Red, Red | Yellow, Yellow => true | _, _ => false end.

Definition otherTeam (t : Team) : Team :=
  match t with Red => Yellow | Yellow => Red end.

Record Stone := mkStone {
  team : Team;
  x : R; y : R;
  vx : R; vy : R;
  radius : R;
  active : bool }.

(** [new Stone(team, x, y)] *)
Definition newStone (t : Team) (px py : R) : Stone :=
  mkStone t px py 0 0 STONE_RADIUS true.

Definition speed (s : Stone) : R := sqrt (vx s * vx s + vy s * vy s).

Definition isMoving (s : Stone) : bool := Rgtb (speed s) MIN_VELOCITY.

(** ** Physics engine: collisions and the moving test *)

(** [resolveCollision(a, b)] mutates both stones; the model returns the
    pair of stones after the call. *)
Definition resolveCollision (a b : Stone) : Stone * Stone :=
  if negb (active a) || negb (active b) then (a, b) else
  let dx := x b - x a in
  let dy := y b - y a in
  let d := sqrt (dx * dx + dy * dy) in
  let minDist := radius a + radius b in
  if Rltb d minDist && Rgtb d 0 then
    let nx := dx / d in
    let ny := dy / d in
    let dvx := vx a - vx b in
    let dvy := vy a - vy b in
    let dvDotN := dvx * nx + dvy * ny in
    if Rleb dvDotN 0 then (a, b) else
    let impulse := dvDotN * RESTITUTION in
    let overlap := minDist - d in
    (mkStone (team a)
       (x a - overlap * (5 / 10) * nx) (y a - overlap * (5 / 10) * ny)
       (vx a - impulse * nx) (vy a - impulse * ny)
       (radius a) (active a),
     mkStone (team b)
       (x b + overlap * (5 / 10) * nx) (y b + overlap * (5 / 10) * ny)
       (vx b + impulse * nx) (vy b + impulse * ny)
       (radius b) (active b))
  else (a, b).

(** [get anyMoving()]: [this.stones.some(s => s.isMoving)] *)
Definition anyMoving (stones : list Stone) : bool := existsb isMoving stones.

(** Centre distance of two stones, as [resolveCollision] computes it. *)
Definition centerDist (a b : Stone) : R :=
  sqrt ((x b - x a) * (x b - x a) + (y b - y a) * (y b - y a)).

(** ** Stone kinematics *)

(** Zones are the objects [{x, y, radius}] held in [sweepZones] and
    [roughZones]; the [time] stamp of a swept zone is read by the renderer
    only and is left out. *)
Record Zone := mkZone { zone_x : R; zone_y : R; zone_radius : R }.

(** The loop [for (const zone of zones) { ... if (d < ...) { friction = hit;
    break; } }] run on a stone centred at [(px, py)] with radius [r]. *)
Fixpoint zoneLoop (zones : list Zone) (px py r hit friction : R) : R :=
  match zones with
  | [] => friction
  | zone :: rest =>
      let dx := px - zone_x zone in
      let dy := py - zone_y zone in
      let d := sqrt (dx * dx + dy * dy) in
      if Rltb d (zone_radius zone + r * (5 / 10)) then hit
      else zoneLoop rest px py r hit friction
  end.

(** [Stone.update(sweepZones, roughZones, currentEnd)] *)
Definition Stone_update (sweepZones roughZones : list Zone) (currentEnd : R)
    (s : Stone) : Stone :=
  if negb (active s) then s else
  let x1 := x s + vx s in
  let y1 := y s + vy s in
  let baseFriction := ICE_FRICTION - (currentEnd - 1) * FRICTION_DEGRADATION in
  let friction := baseFriction in
  let friction := zoneLoop roughZones x1 y1 (radius s) ROUGH_FRICTION friction in
  let friction := zoneLoop sweepZones x1 y1 (radius s) SWEPT_FRICTION friction in
  let vx1 := vx s * friction in
  let vy1 := vy s * friction in
  if Rltb (sqrt (vx1 * vx1 + vy1 * vy1)) MIN_VELOCITY
  then mkStone (team s) x1 y1 0 0 (radius s) (active s)
  else mkStone (team s) x1 y1 vx1 vy1 (radius s) (active s).

(** ** Physics engine state and tick *)

Record PhysicsEngine := mkPhysics {
  stones : list Stone;
  sweepZones : list Zone;
  roughZones : list Zone }.

Record Bounds := mkBounds { left : R; right : R; top : R; bottom : R }.

(** [Renderer.sheetBounds] *)
Definition sheetBounds : Bounds :=
  mkBounds 0 (sheetWidth SHEET) 0 (sheetLength SHEET).

Definition addStone (s : Stone) (p : PhysicsEngine) : PhysicsEngine :=
  mkPhysics (stones p ++ [s]) (sweepZones p) (roughZones p).

Definition addSweepZone (px py : R) (p : PhysicsEngine) : PhysicsEngine :=
  let existing :=
    find (fun z =>
            let dx := zone_x z - px in
            let dy := zone_y z - py in
            Rltb (sqrt (dx * dx + dy * dy)) (SWEEP_RADIUS * (5 / 10)))
         (sweepZones p) in
  match existing with
  | Some _ => p
  | None => mkPhysics (stones p) (sweepZones p ++ [mkZone px py SWEEP_RADIUS])
                      (roughZones p)
  end.

Definition clearSweepZones (p : PhysicsEngine) : PhysicsEngine :=
  mkPhysics (stones p) [] (roughZones p).

Definition clearAll (p : PhysicsEngine) : PhysicsEngine :=
  mkPhysics [] [] (roughZones p).

(** Inner collision loop: stone [a] (at index [i]) against the stones
    after it, in order; both [a] and the others are updated in place. *)
Fixpoint collideWith (a : Stone) (rest : list Stone) : Stone * list Stone :=
  match rest with
  | [] => (a, [])
  | b :: rest' =>
      if negb (active b) then
        let '(a', r) := collideWith a rest' in (a', b :: r)
      else
        let '(a1, b1) := resolveCollision a b in
        let '(a', r) := collideWith a1 rest' in (a', b1 :: r)
  end.

(** Outer collision loop over [i]; [fuel] bounds the recursion by the
    number of stones. *)
Fixpoint collideAll (fuel : nat) (l : list Stone) : list Stone :=
  match fuel, l with
  | S fuel', a :: rest =>
      if negb (active a) then a :: collideAll fuel' rest
      else let '(a', rest') := collideWith a rest in
           a' :: collideAll fuel' rest'
  | _, _ => l
  end.

(** Out-of-bounds marking of one stone (two consecutive [if]s). *)
Definition markOutOfBounds (bounds : Bounds) (s : Stone) : Stone :=
  if negb (active s) then s else
  let s1 :=
    if Rltb (x s - radius s) (left bounds - 20)
       || Rgtb (x s + radius s) (right bounds + 20)
    then mkStone (team s) (x s) (y s) 0 0 (radius s) false else s in
  if Rltb (y s1 - radius s1) (top bounds - 40)
     || Rgtb (y s1 + radius s1) (bottom bounds + 40)
  then mkStone (team s1) (x s1) (y s1) 0 0 (radius s1) false else s1.

(** [PhysicsEngine.update(bounds, currentEnd)]; [currentEnd || 1] replaces
    a zero end number by 1. *)
Definition Physics_update (bounds : Bounds) (currentEnd : Z)
    (p : PhysicsEngine) : PhysicsEngine :=
  let e := if Z.eqb currentEnd 0 then 1%Z else currentEnd in
  let moved := map (Stone_update (sweepZones p) (roughZones p) (IZR e))
                   (stones p) in
  let collided := collideAll (List.length moved) moved in
  mkPhysics (map (markOutOfBounds bounds) collided)
            (sweepZones p) (roughZones p).

(** ** Scoring *)

Definition dist (a b : R * R) : R :=
  let dx := fst a - fst b in
  let dy := snd a - snd b in
  sqrt (dx * dx + dy * dy).

Definition pos (s : Stone) : R * R := (x s, y s).

(** An entry [{team, distance}] of [inHouse]. *)
Record HouseEntry := mkEntry { entry_team : Team; distance : R }.

(** [Array.prototype.sort] with the comparator [a.distance - b.distance]:
    the sort is stable, so the result is the one of a stable insertion
    sort (an entry goes before the later entries of equal distance). *)
Fixpoint insertByDistance (e : HouseEntry) (l : list HouseEntry)
    : list HouseEntry :=
  match l with
  | [] => [e]
  | h :: t => if Rleb (distance e) (distance h) then e :: h :: t
              else h :: insertByDistance e t
  end.

Fixpoint sortByDistance (l : list HouseEntry) : list HouseEntry :=
  match l with
  | [] => []
  | e :: t => insertByDistance e (sortByDistance t)
  end.

(** The result [{team, points}]; [team: -1] is [None]. *)
Record ScoreResult := mkResult { result_team : option Team; points : Z }.

Definition houseCenter : R * R := (sheetWidth SHEET / 2, houseCenterY SHEET).

Definition inHouseOf (stones : list Stone) : list HouseEntry :=
  let maxDist := houseRadius SHEET + STONE_RADIUS in
  sortByDistance
    (map (fun s => mkEntry (team s) (dist (pos s) houseCenter))
       (filter (fun s => active s && Rleb (dist (pos s) houseCenter) maxDist)
          stones)).

(** [s.distance < opponentDist], where [opponentDist] is the distance of
    [closestOpponent] or [Infinity] ([None]). *)
Definition closerThan (opponentDist : option R) (e : HouseEntry) : bool :=
  match opponentDist with
  | Some d => Rltb (distance e) d
  | None => true
  end.

Definition calculateScore (stones : list Stone) : ScoreResult :=
  let inHouse := inHouseOf stones in
  match inHouse with
  | [] => mkResult None 0
  | first :: _ =>
      let closestTeam := entry_team first in
      let closestOpponent :=
        find (fun s => negb (team_eqb (entry_team s) closestTeam)) inHouse in
      let opponentDist := option_map distance closestOpponent in
      let points :=
        fold_left
          (fun pts s =>
             if team_eqb (entry_team s) closestTeam && closerThan opponentDist s
             then (pts + 1)%Z else pts)
          inHouse 0%Z in
      mkResult (Some closestTeam) points
  end.

(** ** Match state *)

(** The plain objects [{team, x, y, vx, vy, active}] used for the
    pre-throw snapshot and for the [sync-stones] payload. *)
Record StoneData := mkStoneData {
  sd_team : Team;
  sd_x : R; sd_y : R;
  sd_vx : R; sd_vy : R;
  sd_active : bool }.

Definition snapshotOf (s : Stone) : StoneData :=
  mkStoneData (team s) (x s) (y s) (vx s) (vy s) (active s).

(** The values of [this.state]. *)
Inductive Phase :=
  lobby | aiming | aim_locked | waiting | cooldown | end_over | game_over.

Definition phase_eqb (a b : Phase) : bool :=
  match a, b with
  | lobby, lobby | aiming, aiming | aim_locked, aim_locked
  | waiting, waiting | cooldown, cooldown | end_over, end_over
  | game_over, game_over => true
  | _, _ => false
  end.

(** Two-element arrays indexed by team ([scores], [stonesThrown]). *)
Definition at_team {A} (p : A * A) (t : Team) : A :=
  match t with Red => fst p | Yellow => snd p end.

Definition upd_team {A} (p : A * A) (t : Team) (v : A) : A * A :=
  match t with Red => (v, snd p) | Yellow => (fst p, v) end.

Record GameManager := mkGameManager {
  physics : PhysicsEngine;
  totalEnds : Z;
  currentEnd : Z;
  scores : Z * Z;
  stonesThrown : Z * Z;
  currentTeam : Team;
  hammer : Team;
  state : Phase;
  aimTarget : option (R * R);
  power : R;
  isDragging : bool;
  isSweeping : bool;
  sweepEnergy : R;
  aimStartTime : R;
  cooldownStart : R;
  cooldownDuration : R;
  preThrowPositions : list StoneData;
  isMyTurn : bool;
  myTeam : option Team;
  isLaunchOwner : bool;
  endScores : list (Z * Z) }.

Definition set_physics (v : PhysicsEngine) (g : GameManager) : GameManager :=
  mkGameManager v (totalEnds g) (currentEnd g) (scores g) (stonesThrown
    g) (currentTeam g) (hammer g) (state g) (aimTarget g) (power g)
    (isDragging g) (isSweeping g) (sweepEnergy g) (aimStartTime g)
    (cooldownStart g) (cooldownDuration g) (preThrowPositions g)
    (isMyTurn g) (myTeam g) (isLaunchOwner g) (endScores g).
Definition set_totalEnds (v : Z) (g : GameManager) : GameManager :=
  mkGameManager (physics g) v (currentEnd g) (scores g) (stonesThrown g)
    (currentTeam g) (hammer g) (state g) (aimTarget g) (power g)
    (isDragging g) (isSweeping g) (sweepEnergy g) (aimStartTime g)
    (cooldownStart g) (cooldownDuration g) (preThrowPositions g)
    (isMyTurn g) (myTeam g) (isLaunchOwner g) (endScores g).
Definition set_currentEnd (v : Z) (g : GameManager) : GameManager :=
  mkGameManager (physics g) (totalEnds g) v (scores g) (stonesThrown g)
    (currentTeam g) (hammer g) (state g) (aimTarget g) (power g)
    (isDragging g) (isSweeping g) (sweepEnergy g) (aimStartTime g)
    (cooldownStart g) (cooldownDuration g) (preThrowPositions g)
    (isMyTurn g) (myTeam g) (isLaunchOwner g) (endScores g).
Definition set_scores (v : Z * Z) (g : GameManager) : GameManager :=
  mkGameManager (physics g) (totalEnds g) (currentEnd g) v (stonesThrown
    g) (currentTeam g) (hammer g) (state g) (aimTarget g) (power g)
    (isDragging g) (isSweeping g) (sweepEnergy g) (aimStartTime g)
    (cooldownStart g) (cooldownDuration g) (preThrowPositions g)
    (isMyTurn g) (myTeam g) (isLaunchOwner g) (endScores g).
Definition set_stonesThrown (v : Z * Z) (g : GameManager) : GameManager :=
  mkGameManager (physics g) (totalEnds g) (currentEnd g) (scores g) v
    (currentTeam g) (hammer g) (state g) (aimTarget g) (power g)
    (isDragging g) (isSweeping g) (sweepEnergy g) (aimStartTime g)
    (cooldownStart g) (cooldownDuration g) (preThrowPositions g)
    (isMyTurn g) (myTeam g) (isLaunchOwner g) (endScores g).
Definition set_currentTeam (v : Team) (g : GameManager) : GameManager :=
  mkGameManager (physics g) (totalEnds g) (currentEnd g) (scores g)
    (stonesThrown g) v (hammer g) (state g) (aimTarget g) (power g)
    (isDragging g) (isSweeping g) (sweepEnergy g) (aimStartTime g)
    (cooldownStart g) (cooldownDuration g) (preThrowPositions g)
    (isMyTurn g) (myTeam g) (isLaunchOwner g) (endScores g).
Definition set_hammer (v : Team) (g : GameManager) : GameManager :=
  mkGameManager (physics g) (totalEnds g) (currentEnd g) (scores g)
    (stonesThrown g) (currentTeam g) v (state g) (aimTarget g) (power g)
    (isDragging g) (isSweeping g) (sweepEnergy g) (aimStartTime g)
    (cooldownStart g) (cooldownDuration g) (preThrowPositions g)
    (isMyTurn g) (myTeam g) (isLaunchOwner g) (endScores g).
Definition set_state (v : Phase) (g : GameManager) : GameManager :=
  mkGameManager (physics g) (totalEnds g) (currentEnd g) (scores g)
    (stonesThrown g) (currentTeam g) (hammer g) v (aimTarget g) (power
    g) (isDragging g) (isSweeping g) (sweepEnergy g) (aimStartTime g)
    (cooldownStart g) (cooldownDuration g) (preThrowPositions g)
    (isMyTurn g) (myTeam g) (isLaunchOwner g) (endScores g).
Definition set_aimTarget (v : option (R * R)) (g : GameManager) : GameManager :=
  mkGameManager (physics g) (totalEnds g) (currentEnd g) (scores g)
    (stonesThrown g) (currentTeam g) (hammer g) (state g) v (power g)
    (isDragging g) (isSweeping g) (sweepEnergy g) (aimStartTime g)
    (cooldownStart g) (cooldownDuration g) (preThrowPositions g)
    (isMyTurn g) (myTeam g) (isLaunchOwner g) (endScores g).
Definition set_power (v : R) (g : GameManager) : GameManager :=
  mkGameManager (physics g) (totalEnds g) (currentEnd g) (scores g)
    (stonesThrown g) (currentTeam g) (hammer g) (state g) (aimTarget g)
    v (isDragging g) (isSweeping g) (sweepEnergy g) (aimStartTime g)
    (cooldownStart g) (cooldownDuration g) (preThrowPositions g)
    (isMyTurn g) (myTeam g) (isLaunchOwner g) (endScores g).
Definition set_isDragging (v : bool) (g : GameManager) : GameManager :=
  mkGameManager (physics g) (totalEnds g) (currentEnd g) (scores g)
    (stonesThrown g) (currentTeam g) (hammer g) (state g) (aimTarget g)
    (power g) v (isSweeping g) (sweepEnergy g) (aimStartTime g)
    (cooldownStart g) (cooldownDuration g) (preThrowPositions g)
    (isMyTurn g) (myTeam g) (isLaunchOwner g) (endScores g).
Definition set_isSweeping (v : bool) (g : GameManager) : GameManager :=
  mkGameManager (physics g) (totalEnds g) (currentEnd g) (scores g)
    (stonesThrown g) (currentTeam g) (hammer g) (state g) (aimTarget g)
    (power g) (isDragging g) v (sweepEnergy g) (aimStartTime g)
    (cooldownStart g) (cooldownDuration g) (preThrowPositions g)
    (isMyTurn g) (myTeam g) (isLaunchOwner g) (endScores g).
Definition set_sweepEnergy (v : R) (g : GameManager) : GameManager :=
  mkGameManager (physics g) (totalEnds g) (currentEnd g) (scores g)
    (stonesThrown g) (currentTeam g) (hammer g) (state g) (aimTarget g)
    (power g) (isDragging g) (isSweeping g) v (aimStartTime g)
    (cooldownStart g) (cooldownDuration g) (preThrowPositions g)
    (isMyTurn g) (myTeam g) (isLaunchOwner g) (endScores g).
Definition set_aimStartTime (v : R) (g : GameManager) : GameManager :=
  mkGameManager (physics g) (totalEnds g) (currentEnd g) (scores g)
    (stonesThrown g) (currentTeam g) (hammer g) (state g) (aimTarget g)
    (power g) (isDragging g) (isSweeping g) (sweepEnergy g) v
    (cooldownStart g) (cooldownDuration g) (preThrowPositions g)
    (isMyTurn g) (myTeam g) (isLaunchOwner g) (endScores g).
Definition set_cooldownStart (v : R) (g : GameManager) : GameManager :=
  mkGameManager (physics g) (totalEnds g) (currentEnd g) (scores g)
    (stonesThrown g) (currentTeam g) (hammer g) (state g) (aimTarget g)
    (power g) (isDragging g) (isSweeping g) (sweepEnergy g)
    (aimStartTime g) v (cooldownDuration g) (preThrowPositions g)
    (isMyTurn g) (myTeam g) (isLaunchOwner g) (endScores g).
Definition set_cooldownDuration (v : R) (g : GameManager) : GameManager :=
  mkGameManager (physics g) (totalEnds g) (currentEnd g) (scores g)
    (stonesThrown g) (currentTeam g) (hammer g) (state g) (aimTarget g)
    (power g) (isDragging g) (isSweeping g) (sweepEnergy g)
    (aimStartTime g) (cooldownStart g) v (preThrowPositions g) (isMyTurn
    g) (myTeam g) (isLaunchOwner g) (endScores g).
Definition set_preThrowPositions (v : list StoneData) (g : GameManager) : GameManager :=
  mkGameManager (physics g) (totalEnds g) (currentEnd g) (scores g)
    (stonesThrown g) (currentTeam g) (hammer g) (state g) (aimTarget g)
    (power g) (isDragging g) (isSweeping g) (sweepEnergy g)
    (aimStartTime g) (cooldownStart g) (cooldownDuration g) v (isMyTurn
    g) (myTeam g) (isLaunchOwner g) (endScores g).
Definition set_isMyTurn (v : bool) (g : GameManager) : GameManager :=
  mkGameManager (physics g) (totalEnds g) (currentEnd g) (scores g)
    (stonesThrown g) (currentTeam g) (hammer g) (state g) (aimTarget g)
    (power g) (isDragging g) (isSweeping g) (sweepEnergy g)
    (aimStartTime g) (cooldownStart g) (cooldownDuration g)
    (preThrowPositions g) v (myTeam g) (isLaunchOwner g) (endScores g).
Definition set_myTeam (v : option Team) (g : GameManager) : GameManager :=
  mkGameManager (physics g) (totalEnds g) (currentEnd g) (scores g)
    (stonesThrown g) (currentTeam g) (hammer g) (state g) (aimTarget g)
    (power g) (isDragging g) (isSweeping g) (sweepEnergy g)
    (aimStartTime g) (cooldownStart g) (cooldownDuration g)
    (preThrowPositions g) (isMyTurn g) v (isLaunchOwner g) (endScores
    g).
Definition set_isLaunchOwner (v : bool) (g : GameManager) : GameManager :=
  mkGameManager (physics g) (totalEnds g) (currentEnd g) (scores g)
    (stonesThrown g) (currentTeam g) (hammer g) (state g) (aimTarget g)
    (power g) (isDragging g) (isSweeping g) (sweepEnergy g)
    (aimStartTime g) (cooldownStart g) (cooldownDuration g)
    (preThrowPositions g) (isMyTurn g) (myTeam g) v (endScores g).
Definition set_endScores (v : list (Z * Z)) (g : GameManager) : GameManager :=
  mkGameManager (physics g) (totalEnds g) (currentEnd g) (scores g)
    (stonesThrown g) (currentTeam g) (hammer g) (state g) (aimTarget g)
    (power g) (isDragging g) (isSweeping g) (sweepEnergy g)
    (aimStartTime g) (cooldownStart g) (cooldownDuration g)
    (preThrowPositions g) (isMyTurn g) (myTeam g) (isLaunchOwner g) v.

Definition set_stones (l : list Stone) (g : GameManager) : GameManager :=
  set_physics (mkPhysics l (sweepZones (physics g)) (roughZones (physics g))) g.

Definition set_roughZones (z : list Zone) (g : GameManager) : GameManager :=
  set_physics (mkPhysics (stones (physics g)) (sweepZones (physics g)) z) g.

(** [this.stonesThrown[t]++] *)
Definition incThrown (t : Team) (g : GameManager) : GameManager :=
  set_stonesThrown
    (upd_team (stonesThrown g) t (at_team (stonesThrown g) t + 1)%Z) g.

Definition totalThrown (g : GameManager) : Z :=
  (fst (stonesThrown g) + snd (stonesThrown g))%Z.

(** [this.currentTeam === this.net.myTeam] *)
Definition myTurnNow (g : GameManager) : bool :=
  match myTeam g with
  | Some t => team_eqb (currentTeam g) t
  | None => false
  end.

Definition launchPos : R * R :=
  (sheetWidth SHEET / 2, sheetLength SHEET - hackFromEnd SHEET - 30).

(** ** Scoring an end and advancing the turn *)

Definition endEnd (g : GameManager) : GameManager :=
  let result := calculateScore (stones (physics g)) in
  let endPoints := (0%Z, 0%Z) in
  let '(endPoints, g) :=
    match result_team result with
    | Some t =>
        (upd_team endPoints t (points result),
         set_hammer (match t with Red => Yellow | Yellow => Red end)
           (set_scores
              (upd_team (scores g) t (at_team (scores g) t + points result)%Z)
              g))
    | None => (endPoints, g)
    end in
  let g := set_state end_over g in
  let g := set_endScores (endScores g ++ [endPoints]) g in
  set_currentEnd (currentEnd g + 1)%Z g.

(** [nextTurn()]; [now] is the value of [Date.now()]. *)
Definition nextTurn (now : R) (g : GameManager) : GameManager :=
  if (totalThrown g >=? 16)%Z then endEnd g else
  let other := match currentTeam g with Red => Yellow | Yellow => Red end in
  let g := if (at_team (stonesThrown g) other <? 8)%Z
           then set_currentTeam other g else g in
  let g := set_state cooldown g in
  let g := set_cooldownStart now g in
  let g := set_cooldownDuration 2000 g in
  set_isMyTurn (myTurnNow g) g.

(** [startEnd()]; [zones] is the outcome of [generateRoughZones()], which
    draws from [Math.random]. *)
Definition startEnd (zones : list Zone) (now : R) (g : GameManager)
    : GameManager :=
  let g := set_physics (clearAll (physics g)) g in
  let g := set_stonesThrown (0%Z, 0%Z) g in
  let g := set_roughZones zones g in
  let g := set_currentTeam
             (match hammer g with Yellow => Red | Red => Yellow end) g in
  let g := set_isMyTurn (myTurnNow g) g in
  let g := set_state aiming g in
  let g := set_aimStartTime now g in
  set_sweepEnergy MAX_SWEEP_ENERGY g.

(** ** Throwing a stone *)

(** [launchStone()].  [finalAngle] stands for [Math.atan2(dy, dx) + wobble],
    whose wobble term reads the clock.  With no [aimTarget] the first
    property access throws before any field is written. *)
Definition launchStone (finalAngle : R) (g : GameManager) : GameManager :=
  match aimTarget g with
  | None => g
  | Some _ =>
      let speed := power g * MAX_LAUNCH_SPEED in
      let stone :=
        mkStone (currentTeam g) (fst launchPos) (snd launchPos)
          (cos finalAngle * speed) (sin finalAngle * speed)
          STONE_RADIUS true in
      let g := set_isLaunchOwner true g in
      let g := set_preThrowPositions (map snapshotOf (stones (physics g))) g in
      let g := set_physics (addStone stone (physics g)) g in
      let g := set_physics (clearSweepZones (physics g)) g in
      let g := incThrown (currentTeam g) g in
      let g := set_state waiting g in
      set_sweepEnergy MAX_SWEEP_ENERGY g
  end.

(** [launchStoneFromAction(action)] on [action.team], [action.vx],
    [action.vy]. *)
Definition launchStoneFromAction (t : Team) (avx avy : R) (g : GameManager)
    : GameManager :=
  let stone :=
    mkStone t (fst launchPos) (snd launchPos) avx avy STONE_RADIUS true in
  let g := set_preThrowPositions (map snapshotOf (stones (physics g))) g in
  let g := set_physics (addStone stone (physics g)) g in
  let g := set_physics (clearSweepZones (physics g)) g in
  let g := incThrown t g in
  let g := set_state waiting g in
  set_sweepEnergy MAX_SWEEP_ENERGY g.

(** ** Synchronisation *)

Definition stoneOfData (sd : StoneData) : Stone :=
  mkStone (sd_team sd) (sd_x sd) (sd_y sd) (sd_vx sd) (sd_vy sd)
    STONE_RADIUS (sd_active sd).

Definition applyStoneSyncFromRemote (stonesData : list StoneData)
    (g : GameManager) : GameManager :=
  set_stones (map stoneOfData stonesData) g.

(** The [game-state] record; an absent field is [None], and a zero
    [currentEnd] is falsy and therefore ignored. *)
Record RemoteState := mkRemoteState {
  rs_scores : option (Z * Z);
  rs_currentEnd : option Z;
  rs_hammer : option Team }.

Definition syncFromRemote (st : RemoteState) (g : GameManager) : GameManager :=
  let g := match rs_scores st with Some sc => set_scores sc g | None => g end in
  let g := match rs_currentEnd st with
           | Some e => if Z.eqb e 0 then g else set_currentEnd e g
           | None => g
           end in
  match rs_hammer st with Some h => set_hammer h g | None => g end.

(** ** Rule enforcer *)

(** Index of the first element satisfying [p] ([Array.prototype.find], kept
    as an index because the element found is then mutated in place). *)
Fixpoint findIndex {A} (p : A -> bool) (l : list A) : option nat :=
  match l with
  | [] => None
  | a :: t => if p a then Some O else option_map S (findIndex p t)
  end.

(** In-place update of the element at index [i]. *)
Fixpoint updateAt {A} (i : nat) (f : A -> A) (l : list A) : list A :=
  match l, i with
  | [], _ => []
  | a :: t, O => f a :: t
  | a :: t, S j => a :: updateAt j f t
  end.

Definition teleport (px py : R) (s : Stone) : Stone :=
  mkStone (team s) px py 0 0 (radius s) (active s).

Definition retire (s : Stone) : Stone :=
  mkStone (team s) (x s) (y s) (vx s) (vy s) (radius s) false.

(** The stationary stone still sitting at the snapshot position. *)
Definition stillThere (pre : StoneData) (s : Stone) : bool :=
  team_eqb (team s) (sd_team pre) && negb (isMoving s)
  && Rltb (Rabs (x s - sd_x pre)) 1 && Rltb (Rabs (y s - sd_y pre)) 1.

(** A live stone of the same team away from the snapshot position. *)
Definition movedAway (pre : StoneData) (s : Stone) : bool :=
  team_eqb (team s) (sd_team pre) && active s
  && (Rgtb (Rabs (x s - sd_x pre)) 2 || Rgtb (Rabs (y s - sd_y pre)) 2).

Definition inFGZ (pre : StoneData) : bool :=
  let hogY := hogLineFromEnd SHEET in
  let houseRadius := houseRadius SHEET + STONE_RADIUS in
  let distToHouse :=
    sqrt ((sd_x pre - fst houseCenter) ^ 2 + (sd_y pre - snd houseCenter) ^ 2) in
  Rleb (sd_y pre) hogY && Rgtb distToHouse houseRadius.

(** One iteration of the loop over [preThrowPositions]. *)
Definition fgzStep (currentTeam : Team) (stones : list Stone) (pre : StoneData)
    : list Stone :=
  if team_eqb (sd_team pre) currentTeam then stones else
  if negb (sd_active pre) then stones else
  if negb (inFGZ pre) then stones else
  match find (stillThere pre) stones with
  | Some _ => stones
  | None =>
      let stones1 :=
        match findIndex (movedAway pre) stones with
        | Some i => updateAt i (teleport (sd_x pre) (sd_y pre)) stones
        | None => stones ++ [newStone (sd_team pre) (sd_x pre) (sd_y pre)]
        end in
      let lastIdx := (List.length stones1 - 1)%nat in
      match nth_error stones1 lastIdx with
      | Some thrownStone =>
          if team_eqb (team thrownStone) currentTeam
          then updateAt lastIdx retire stones1
          else stones1
      | None => stones1
      end
  end.

Definition enforceFreeGuardZone (g : GameManager) : GameManager :=
  if (totalThrown g >? FGZ_STONE_COUNT)%Z then g else
  set_stones
    (fold_left (fgzStep (currentTeam g)) (preThrowPositions g)
       (stones (physics g)))
    g.

Definition checkHogLine (g : GameManager) : GameManager :=
  let cutoffY := centerLineY SHEET in
  set_stones
    (map (fun s =>
            if active s && Rgtb (y s) cutoffY && negb (isMoving s)
            then mkStone (team s) (x s) (y s) 0 0 (radius s) false
            else s)
       (stones (physics g)))
    g.

(** ** Game loop *)

(** The cooldown block of [update()]. *)
Definition cooldownTimer (now : R) (g : GameManager) : GameManager :=
  if phase_eqb (state g) cooldown then
    let elapsed := now - cooldownStart g in
    if Rgeb elapsed (cooldownDuration g) then
      let g := set_state aiming g in
      let g := set_aimStartTime now g in
      let g := set_sweepEnergy MAX_SWEEP_ENERGY g in
      set_physics (clearSweepZones (physics g)) g
    else g
  else g.

(** The [waiting] block of [update()]: one simulation tick and, once
    nothing moves, rule enforcement and the turn change. *)
Definition simulationStep (now : R) (g : GameManager) : GameManager :=
  if phase_eqb (state g) waiting then
    let g := set_physics
               (Physics_update sheetBounds (currentEnd g) (physics g)) g in
    if negb (anyMoving (stones (physics g))) then
      let g := if isLaunchOwner g then set_isLaunchOwner false g else g in
      let g := enforceFreeGuardZone g in
      let g := checkHogLine g in
      let g := set_isSweeping false g in
      nextTurn now g
    else g
  else g.

(** The part of [update()] after the aim timer: the cooldown block, then
    the [waiting] block. *)
Definition updateAfterTimer (now : R) (g : GameManager) : GameManager :=
  simulationStep now (cooldownTimer now g).

(** [update()]; [now] is the value of [Date.now()] in this frame. *)
Definition update (now : R) (g : GameManager) : GameManager :=
  if (phase_eqb (state g) aiming || phase_eqb (state g) aim_locked)
     && isMyTurn g then
    let elapsed := now - aimStartTime g in
    let limit := if phase_eqb (state g) aim_locked then 35000
                 else AIM_TIME_LIMIT in
    if Rgeb elapsed limit then
      let g := incThrown (currentTeam g) g in
      let g := set_isDragging false g in
      let g := set_aimTarget None g in
      let g := set_power 0 g in
      nextTurn now g
    else updateAfterTimer now g
  else updateAfterTimer now g.

(** ** Messages from the peer *)

Inductive Action :=
| ActLaunch (t : Team) (avx avy apower : R) (aim : option (R * R))
            (zones : option (list Zone))
| ActSweep (px py : R)
| ActTimeout (t : Team)
| ActSyncStones (stonesData : list StoneData)
| ActEndEnd.

Definition handleRemoteAction (now : R) (action : Action) (g : GameManager)
    : GameManager :=
  match action with
  | ActLaunch t avx avy apower aim zones =>
      let g := set_aimTarget aim g in
      let g := set_power apower g in
      let g := set_currentTeam t g in
      let g := match zones with
               | Some z => set_roughZones z g
               | None => g
               end in
      launchStoneFromAction t avx avy g
  | ActSweep px py => set_physics (addSweepZone px py (physics g)) g
  | ActTimeout t => nextTurn now (incThrown t g)
  | ActSyncStones stonesData => applyStoneSyncFromRemote stonesData g
  | ActEndEnd => g
  end.

(** ** Input handlers *)

(** One brush stroke: [addSweepZone] and the energy drain. *)
Definition sweepAt (gp : R * R) (g : GameManager) : GameManager :=
  let g := set_physics (addSweepZone (fst gp) (snd gp) (physics g)) g in
  set_sweepEnergy (Rmax 0 (sweepEnergy g - SWEEP_DRAIN_RATE)) g.

(** [onDown]; [gp] is the pointer position in game coordinates. *)
Definition onDown (gp : R * R) (g : GameManager) : GameManager :=
  if phase_eqb (state g) aiming && isMyTurn g then set_isDragging true g
  else if phase_eqb (state g) waiting && Rgtb (sweepEnergy g) 0 then
    sweepAt gp (set_isSweeping true g)
  else g.

(** [onMove]; [newAim] is the aim target computed from the drag when the
    drag is longer than 2 units ([None] otherwise) and [dragPower] the
    clamped power preview. *)
Definition onMove (gp : R * R) (newAim : option (R * R)) (dragPower : R)
    (g : GameManager) : GameManager :=
  if phase_eqb (state g) waiting then
    if isSweeping g && Rgtb (sweepEnergy g) 0 then
      let g := sweepAt gp g in
      if Rleb (sweepEnergy g) 0 then set_isSweeping false g else g
    else g
  else if negb (isDragging g) || negb (phase_eqb (state g) aiming) then g
  else
    let g := match newAim with
             | Some a => set_aimTarget (Some a) g
             | None => g
             end in
    set_power dragPower g.

(** [onUp] *)
Definition onUp (g : GameManager) : GameManager :=
  if isSweeping g then set_isSweeping false g
  else if negb (isDragging g) || negb (phase_eqb (state g) aiming)
          || negb (isMyTurn g) then g
  else
    let g := set_isDragging false g in
    match aimTarget g with
    | Some _ => set_power (5 / 10) (set_state aim_locked g)
    | None => set_power 0 (set_aimTarget None g)
    end.

(** The launch button. *)
Definition onLaunchClick (finalAngle : R) (g : GameManager) : GameManager :=
  if negb (phase_eqb (state g) aim_locked) then g else
  let g := if Rltb (power g) (3 / 100) then set_power (3 / 100) g else g in
  launchStone finalAngle g.

(** The cancel button. *)
Definition onCancelClick (g : GameManager) : GameManager :=
  if negb (phase_eqb (state g) aim_locked) then g else
  set_power 0 (set_aimTarget None (set_state aiming g)).

(** ** Events of one end *)

(** Everything that can happen to a peer between [startEnd()] and the next
    click on the end-of-end dialog. *)
Inductive Event :=
| Frame (now : R)                          (* [loop()] *)
| MouseDown (gp : R * R)
| MouseMove (gp : R * R) (newAim : option (R * R)) (dragPower : R)
| MouseUp
| SliderSet (ratio : R)
| LaunchClick (finalAngle : R)
| CancelClick
| Remote (now : R) (action : Action)       (* [player-action] *)
| RemoteGameState (st : RemoteState).      (* [game-state] *)

Definition handle (e : Event) (g : GameManager) : GameManager :=
  match e with
  | Frame now => if phase_eqb (state g) lobby then g else update now g
  | MouseDown gp => onDown gp g
  | MouseMove gp newAim dragPower => onMove gp newAim dragPower g
  | MouseUp => onUp g
  | SliderSet ratio => set_power ratio g
  | LaunchClick finalAngle => onLaunchClick finalAngle g
  | CancelClick => onCancelClick g
  | Remote now action => handleRemoteAction now action g
  | RemoteGameState st => syncFromRemote st g
  end.

Definition run (evs : list Event) (g : GameManager) : GameManager :=
  fold_left (fun g e => handle e g) evs g.

(** An event is a throw when it makes [stonesThrown[t]++] run: a confirmed
    launch, an aim timer that expires, or the peer's [launch] / [timeout]
    message. *)
Definition isThrow (e : Event) (g : GameManager) : bool :=
  match e with
  | Frame now =>
      negb (phase_eqb (state g) lobby)
      && ((phase_eqb (state g) aiming || phase_eqb (state g) aim_locked)
          && isMyTurn g)
      && Rgeb (now - aimStartTime g)
           (if phase_eqb (state g) aim_locked then 35000 else AIM_TIME_LIMIT)
  | LaunchClick _ =>
      phase_eqb (state g) aim_locked
      && match aimTarget g with Some _ => true | None => false end
  | Remote _ (ActLaunch _ _ _ _ _ _) => true
  | Remote _ (ActTimeout _) => true
  | _ => false
  end.

(** A throw that comes from the peer. *)
Definition isRemoteThrow (e : Event) : bool :=
  match e with
  | Remote _ (ActLaunch _ _ _ _ _ _) => true
  | Remote _ (ActTimeout _) => true
  | _ => false
  end.

(** Every message of the peer that throws a stone is handled while fewer
    than 16 stones have been thrown. *)
Fixpoint remoteThrowsInTurn (evs : list Event) (g : GameManager) : Prop :=
  match evs with
  | [] => True
  | e :: rest =>
      (isRemoteThrow e = true -> (totalThrown g < 16)%Z)
      /\ remoteThrowsInTurn rest (handle e g)
  end.


(** * Notions used to state the properties *)

(** A retired stone that still carries a velocity. *)
Definition driftingRetired : Stone := mkStone Red 0 0 1 0 STONE_RADIUS false.

(** The projection of the relative velocity of [a] and [b] onto the
    collision normal ([dvDotN] in [resolveCollision]). *)
Definition approachSpeed (a b : Stone) : R :=
  let dx := x b - x a in
  let dy := y b - y a in
  let d := sqrt (dx * dx + dy * dy) in
  (vx a - vx b) * (dx / d) + (vy a - vy b) * (dy / d).

(** The zone [zone] reaches the stone centre [(px, py)]: the centre lies
    within the zone's radius plus half the stone radius [r]. *)
Definition covers (px py r : R) (zone : Zone) : bool :=
  Rltb (sqrt ((px - zone_x zone) * (px - zone_x zone)
              + (py - zone_y zone) * (py - zone_y zone)))
       (zone_radius zone + r * (5 / 10)).

Definition inSomeZone (zones : list Zone) (px py r : R) : bool :=
  existsb (covers px py r) zones.

(** The friction rule in the words of the specification: swept first, then
    rough, then the base coefficient degraded with the end number. *)
Definition frictionRule (sweepZones roughZones : list Zone) (currentEnd : R)
    (px py r : R) : R :=
  if inSomeZone sweepZones px py r then SWEPT_FRICTION
  else if inSomeZone roughZones px py r then ROUGH_FRICTION
  else ICE_FRICTION - (currentEnd - 1) * FRICTION_DEGRADATION.

(** Hard stop: a velocity whose norm is below the threshold becomes zero. *)
Definition stopBelowThreshold (v : R * R) : R * R :=
  if Rltb (sqrt (fst v * fst v + snd v * snd v)) MIN_VELOCITY
  then (0, 0) else v.

(** [n] kinematics ticks of one stone. *)
Definition ticks (n : nat) (sweepZones roughZones : list Zone)
    (currentEnd : R) (s : Stone) : Stone :=
  Nat.iter n (Stone_update sweepZones roughZones currentEnd) s.

(** The centre of a stone after the position step of its next tick. *)
Definition nextCentre (s : Stone) : R * R := (x s + vx s, y s + vy s).

(** The speed after one tick with friction factor [f], as a function of the
    speed before it. *)
Definition tickSpeed (f v : R) : R :=
  if Rltb (f * v) MIN_VELOCITY then 0 else f * v.

(** A stone moving just above the threshold, a rough patch and a swept
    patch around it. *)
Definition slowStone : Stone :=
  mkStone Red 100 500 (601 / 10000) 0 STONE_RADIUS true.
Definition patchAtSlowStone : Zone := mkZone 100 500 20.

(** At its next tick the stone is reached by a rough zone and by no swept
    zone / is reached by a swept zone. *)
Definition onRoughIce (sweepZones roughZones : list Zone) (s : Stone) : Prop :=
  inSomeZone roughZones (x s + vx s) (y s + vy s) (radius s) = true
  /\ inSomeZone sweepZones (x s + vx s) (y s + vy s) (radius s) = false.

Definition onSweptIce (sweepZones : list Zone) (s : Stone) : Prop :=
  inSomeZone sweepZones (x s + vx s) (y s + vy s) (radius s) = true.

(** Two overlapping stones, the first sliding into the second. *)
Definition strikerStone : Stone := mkStone Red 100 300 1 0 STONE_RADIUS true.
Definition struckStone : Stone := mkStone Yellow 120 300 0 0 STONE_RADIUS true.

(** ** Scoring, as the specification words it *)

Definition distToButton (s : Stone) : R := dist (pos s) houseCenter.

(** The stones the score is computed from: active and within the house
    outer radius plus one stone radius of the button. *)
Definition inHouseb (s : Stone) : bool :=
  active s && Rleb (distToButton s) (houseRadius SHEET + STONE_RADIUS).

Definition entryOf (s : Stone) : HouseEntry :=
  mkEntry (team s) (distToButton s).

(** [e] is strictly closer than every entry of another team than [t]. *)
Definition beatsOpponents (t : Team) (all : list HouseEntry) (e : HouseEntry)
    : bool :=
  forallb (fun o => team_eqb (entry_team o) t
                    || Rltb (distance e) (distance o)) all.

Definition countsFor (t : Team) (all : list HouseEntry) (e : HouseEntry)
    : bool :=
  team_eqb (entry_team e) t && beatsOpponents t all e.

Definition pointsFor (t : Team) (all : list HouseEntry) : Z :=
  Z.of_nat (List.length (filter (countsFor t all) all)).

(** The same on stones: [s] is a stone of team [t] strictly closer to the
    button than every stone of [house] that belongs to the other team. *)
Definition scoringStone (t : Team) (house : list Stone) (s : Stone) : bool :=
  team_eqb (team s) t
  && forallb (fun o => team_eqb (team o) t
                       || Rltb (distToButton s) (distToButton o)) house.

Definition leDistance (a b : HouseEntry) : Prop := distance a <= distance b.

(** Two stones of different teams share the closest distance. *)
Definition tiedForClosest (house : list Stone) : Prop :=
  exists a b, In a house /\ In b house /\ team a <> team b
    /\ distToButton a = distToButton b
    /\ forall s, In s house -> distToButton a <= distToButton s.

(** Two red stones 10 and 20 away from the button and a yellow one 15
    away. *)
Definition redNear : Stone := newStone Red 120 130.
Definition redFar : Stone := newStone Red 120 140.
Definition yellowMid : Stone := newStone Yellow 120 135.


(** ** Concrete match states *)

(** The fields as the [GameManager] constructor leaves them. *)
Definition initialGame : GameManager :=
  mkGameManager (mkPhysics [] [] []) 8 1 (0, 0)%Z (0, 0)%Z Red Yellow lobby
    None 0 false false MAX_SWEEP_ENERGY 0 0 0 [] false None false [].

(** Second throw of an end: yellow has a guard at (10, 150); red's stone
    knocks it over the side line, where the stepper retires it, and comes
    to rest at (60, 160). *)
Definition guardBefore : StoneData := mkStoneData Yellow 10 150 0 0 true.
Definition guardKnockedOut : Stone :=
  mkStone Yellow (-7) 150 0 0 STONE_RADIUS false.
Definition thrownStone : Stone := mkStone Red 60 160 0 0 STONE_RADIUS true.

Definition afterTakeOut : GameManager :=
  set_stones [guardKnockedOut; thrownStone]
    (set_preThrowPositions [guardBefore]
       (set_stonesThrown (1, 1)%Z
          (set_currentTeam Red (set_state waiting initialGame)))).

(** The phases of a running end with the throw count each allows: fewer
    than 16 while a stone can still be thrown, at most 16 while a stone
    is sliding, exactly 16 once the end is over. *)
Definition withinEnd (g : GameManager) : Prop :=
  match state g with
  | aiming | aim_locked | cooldown => (totalThrown g < 16)%Z
  | waiting => (totalThrown g <= 16)%Z
  | end_over => totalThrown g = 16%Z
  | lobby | game_over => False
  end.

(** The phase [nextTurn] leaves behind when [n] stones have been thrown. *)
Definition phaseAfterTurn (n : Z) : Phase :=
  if (n >=? 16)%Z then end_over else cooldown.

(** The peer playing yellow, at the start of a match. *)
Definition yellowPeer : GameManager :=
  set_myTeam (Some Yellow) initialGame.

(** A pair of turns in which both players let the aim timer run out: the
    peer's [timeout] message arrives at time [t], the cooldown ends two
    seconds later, and the local aim timer expires after 15 more seconds. *)
Definition timeoutRound (t : R) : list Event :=
  [Remote t (ActTimeout Red); Frame (t + 2000); Frame (t + 17000)].

(** Eight such rounds: all 16 stones of the end. *)
Definition sixteenTimeouts : list Event :=
  flat_map timeoutRound
    [0; 40000; 80000; 120000; 160000; 200000; 240000; 280000].

(** The first [launch] of the next end, sent by a peer that has already
    dismissed the end-of-end dialog. *)
Definition earlyLaunch : Event :=
  Remote 330000
    (ActLaunch Red 0 (-5) (5 / 10) (Some (120, 690))
       (Some [mkZone 60 250 11; mkZone 180 520 17; mkZone 90 700 14])).

(** The yellow peer right after [startEnd()] of the first end. *)
Definition firstEndStart : GameManager :=
  startEnd [mkZone 70 300 12; mkZone 150 480 15; mkZone 100 650 18] 0
    yellowPeer.

(** * Notions for further properties of the engine *)



(** The stone is inside the sheet bounds, slack included. *)
Definition inBounds (bounds : Bounds) (s : Stone) : Prop :=
  left bounds - 20 <= x s - radius s
  /\ x s + radius s <= right bounds + 20
  /\ top bounds - 40 <= y s - radius s
  /\ y s + radius s <= bottom bounds + 40.

(** What a simulation tick may do to the stone in one slot of the array:
    team and radius stay, a retired stone is left as it is, no stone comes
    back into play, and a stone retired by the tick is stopped. *)
Definition tickKeeps (s s' : Stone) : Prop :=
  team s' = team s
  /\ radius s' = radius s
  /\ (active s = false -> s' = s)
  /\ (active s' = true -> active s = true)
  /\ (active s = true -> active s' = false -> vx s' = 0 /\ vy s' = 0).


(** A stone that does not move and, if still in play, is on the sheet. *)
Definition settled (bounds : Bounds) (s : Stone) : Prop :=
  vx s = 0 /\ vy s = 0 /\ (active s = true -> inBounds bounds s).



(** What kinematics and collisions may do to a stone: everything but its
    position and velocity stays, and a retired stone is left as it is. *)
Definition slotKept (s s' : Stone) : Prop :=
  team s' = team s
  /\ radius s' = radius s
  /\ active s' = active s
  /\ (active s = false -> s' = s).

(** What the line check may do to a stone: it stays where it is, and it
    is either untouched or retired with zero velocity. *)
Definition lineCheckKeeps (s s' : Stone) : Prop :=
  team s' = team s /\ x s' = x s /\ y s' = y s /\ radius s' = radius s
  /\ (s' = s \/ (active s = true /\ active s' = false
                 /\ vx s' = 0 /\ vy s' = 0)).

(** A yellow guard that was only nudged aside, and the settled state in
    which it is still where the snapshot has it. *)
Definition guardNudged : Stone := mkStone Yellow 40 150 0 0 STONE_RADIUS true.
Definition guardInPlace : Stone := mkStone Yellow 10 150 0 0 STONE_RADIUS true.

Definition afterCleanThrow : GameManager :=
  set_stones [guardInPlace; thrownStone]
    (set_preThrowPositions [guardBefore]
       (set_stonesThrown (1, 1)%Z
          (set_currentTeam Red (set_state waiting initialGame)))).

(** ** Notions for the turn structure *)

(** The phases in which a stone can still be thrown in the current turn. *)
Definition canAim (g : GameManager) : Prop :=
  state g = aiming \/ state g = aim_locked \/ state g = cooldown.

(** Whenever a throw is possible, the end is not complete and the team to
    throw still has stones. *)
Definition turnOpen (g : GameManager) : Prop :=
  canAim g ->
  (totalThrown g < 16)%Z
  /\ (at_team (stonesThrown g) (currentTeam g) < 8)%Z.

(** Events of the local player and of the local game loop. *)
Definition isLocalEvent (e : Event) : bool :=
  match e with
  | Remote _ _ | RemoteGameState _ => false
  | _ => true
  end.

(** The [launch] message [launchStone()] sends: the rough zones travel
    with the first throw of an end only. *)
Definition launchActionOf (finalAngle : R) (g : GameManager) : Action :=
  let speed := power g * MAX_LAUNCH_SPEED in
  ActLaunch (currentTeam g)
    (cos finalAngle * speed) (sin finalAngle * speed)
    (power g) (aimTarget g)
    (if (totalThrown g =? 0)%Z then Some (roughZones (physics g)) else None).

(** The [sync-stones] message the owner of a throw sends once its
    simulation has settled. *)
Definition syncActionOf (g : GameManager) : Action :=
  ActSyncStones (map snapshotOf (stones (physics g))).

(** Every stone has the standard radius. *)
Definition standardStones (l : list Stone) : Prop :=
  Forall (fun s => radius s = STONE_RADIUS) l.

(** ** Utilities and the renderer transform *)

(** [clamp(val, min, max)] *)
Definition clamp (val min max : R) : R := Rmax min (Rmin max val).

(** The fields of [Renderer] that map game units to canvas pixels. *)
Record Renderer := mkRenderer { scale : R; offsetX : R; offsetY : R }.

Definition ss (r : Renderer) (v : R) : R := v * scale r.






(** * The relay server ([server.js])

    The lobby manager of the relay.  Socket ids, nicknames and flags are
    strings.  A lobby object is mutated in place, so a handler updates the
    lobby at its index of the [lobbies] array.  A Socket.io room
    [lobby-<id>] has the sockets of [lobby.players] as members: a socket
    joins the room when it is pushed and leaves it when it is filtered
    out. *)

Inductive LobbyStatus := status_waiting | status_playing | status_finished.

Record Player := mkPlayer {
  player_id : String.string;
  player_nickname : String.string;
  player_flag : String.string;
  player_team : Team }.

Record Lobby := mkLobby {
  lobby_id : Z;
  players : list Player;
  status : LobbyStatus }.

Definition TOTAL_LOBBIES : nat := 50.

(** The 50 fixed lobbies created at start-up. *)
Definition initialLobbies : list Lobby :=
  map (fun i => mkLobby (Z.of_nat i) [] status_waiting) (seq 1 TOTAL_LOBBIES).

Definition isSocket (socketId : String.string) (p : Player) : bool :=
  String.eqb (player_id p) socketId.

(** The test of [findLobbyByPlayer]. *)
Definition hasPlayer (socketId : String.string) (l : Lobby) : bool :=
  existsb (isSocket socketId) (players l).

Definition findLobbyByPlayer (socketId : String.string) (lobbies : list Lobby)
    : option Lobby :=
  find (hasPlayer socketId) lobbies.

(** [leaveLobby(socket, lobby)], as an update of the lobby. *)
Definition leaveLobby (socketId : String.string) (lob : Lobby) : Lobby :=
  match find (isSocket socketId) (players lob) with
  | None => lob
  | Some _ =>
      let ps := filter (fun p => negb (isSocket socketId p)) (players lob) in
      let st := match status lob with
                | status_playing => status_waiting
                | s => s
                end in
      let ps := match ps with
                | [p0] => [mkPlayer (player_id p0) (player_nickname p0)
                             (player_flag p0) Red]
                | _ => ps
                end in
      let st := if (0 <? List.length ps)%nat
                then status_waiting else status_waiting in
      mkLobby (lobby_id lob) ps st
  end.

(** [const lobby = findLobbyByPlayer(socket.id); if (lobby) leaveLobby(...)]:
    the [leave-lobby] and [disconnect] handlers. *)
Definition leaveCurrent (socketId : String.string) (lobbies : list Lobby)
    : list Lobby :=
  match findIndex (hasPlayer socketId) lobbies with
  | Some i => updateAt i (leaveLobby socketId) lobbies
  | None => lobbies
  end.

(** The value passed to the callback of [join-lobby]. *)
Inductive JoinResult :=
| JoinNotFound                      (* [{ error: 'Sala não encontrada' }] *)
| JoinFull                          (* [{ error: 'Sala cheia' }] *)
| JoinOk (team : Team) (lobbyId : Z).

(** The push of the new player, followed by the start of the game when the
    lobby is then complete. *)
Definition addPlayer (socketId nickname flag : String.string) (lob : Lobby)
    : Lobby :=
  let team := if (List.length (players lob) =? 0)%nat then Red else Yellow in
  let ps := players lob ++ [mkPlayer socketId nickname flag team] in
  mkLobby (lobby_id lob) ps
    (if (List.length ps =? 2)%nat then status_playing else status lob).

(** The [join-lobby] handler; [nickname] and [flag] are the values of the
    connection's variables, and the callback is a function, as the one the
    client's [joinLobby] passes. *)
Definition joinLobby (socketId nickname flag : String.string) (lobbyId : Z)
    (lobbies : list Lobby) : list Lobby * JoinResult :=
  match findIndex (fun l => Z.eqb (lobby_id l) lobbyId) lobbies with
  | None => (lobbies, JoinNotFound)
  | Some j =>
      let lobbies := leaveCurrent socketId lobbies in
      match nth_error lobbies j with
      | None => (lobbies, JoinNotFound)
      | Some lob =>
          if (2 <=? List.length (players lob))%nat
          then (lobbies, JoinFull)
          else
            let team := if (List.length (players lob) =? 0)%nat
                        then Red else Yellow in
            (updateAt j (addPlayer socketId nickname flag) lobbies,
             JoinOk team lobbyId)
      end
  end.

Definition setStatus (st : LobbyStatus) (lob : Lobby) : Lobby :=
  mkLobby (lobby_id lob) (players lob) st.

(** The [game-over] and [return-to-lobby] handlers. *)
Definition markStatus (st : LobbyStatus) (socketId : String.string)
    (lobbies : list Lobby) : list Lobby :=
  match findIndex (hasPlayer socketId) lobbies with
  | Some i => updateAt i (setStatus st) lobbies
  | None => lobbies
  end.


(** What a socket can ask of the lobby manager. *)
Inductive ServerEvent :=
| SrvJoin (socketId nickname flag : String.string) (lobbyId : Z)
| SrvLeave (socketId : String.string)
| SrvDisconnect (socketId : String.string)
| SrvGameOver (socketId : String.string)
| SrvReturnToLobby (socketId : String.string)
| SrvRelay (socketId : String.string).   (* [player-action], [game-state] *)

Definition serverStep (e : ServerEvent) (lobbies : list Lobby) : list Lobby :=
  match e with
  | SrvJoin s n f i => fst (joinLobby s n f i lobbies)
  | SrvLeave s => leaveCurrent s lobbies
  | SrvDisconnect s => leaveCurrent s lobbies
  | SrvGameOver s => markStatus status_finished s lobbies
  | SrvReturnToLobby s => markStatus status_waiting s lobbies
  | SrvRelay _ => lobbies
  end.

Definition serverRun (evs : list ServerEvent) (lobbies : list Lobby)
    : list Lobby :=
  fold_left (fun l e => serverStep e l) evs lobbies.

(** The socket ids of a lobby, and of all lobbies. *)
Definition lobbySockets (l : Lobby) : list String.string :=
  map player_id (players l).
Definition allSockets (lobbies : list Lobby) : list String.string :=
  flat_map lobbySockets lobbies.

(** A well-formed lobby: at most two players, the first on team 0 and the
    second on team 1, and a game in progress only with both. *)
Definition lobbyOk (l : Lobby) : Prop :=
  (map player_team (players l) = []
   \/ map player_team (players l) = [Red]
   \/ map player_team (players l) = [Red; Yellow])
  /\ (status l = status_playing -> List.length (players l) = 2%nat).

Definition serverOk (lobbies : list Lobby) : Prop :=
  Forall lobbyOk lobbies
  /\ NoDup (allSockets lobbies)
  /\ map lobby_id lobbies = map lobby_id initialLobbies.

(** The test "is not [socketId]" on socket ids. *)
Definition otherSocket (socketId : String.string) (i : String.string) : bool :=
  negb (String.eqb i socketId).
(** * Properties *)

(** ** Comparisons *)

Lemma Rltb_true_iff (a b : R) : Rltb a b = true <-> a < b.
Proof. unfold Rltb; destruct (Rlt_dec a b); split; intros; try easy. Qed.

Lemma Rltb_false_iff (a b : R) : Rltb a b = false <-> b <= a.
Proof.
  unfold Rltb; destruct (Rlt_dec a b); split; intros; try easy; lra.
Qed.

Lemma Rleb_true_iff (a b : R) : Rleb a b = true <-> a <= b.
Proof. unfold Rleb; destruct (Rle_dec a b); split; intros; try easy. Qed.

Lemma Rleb_false_iff (a b : R) : Rleb a b = false <-> b < a.
Proof.
  unfold Rleb; destruct (Rle_dec a b); split; intros; try easy; lra.
Qed.

Lemma Rgtb_true_iff (a b : R) : Rgtb a b = true <-> a > b.
Proof. unfold Rgtb; rewrite Rltb_true_iff; lra. Qed.

Lemma Rgtb_false_iff (a b : R) : Rgtb a b = false <-> a <= b.
Proof. unfold Rgtb; rewrite Rltb_false_iff; lra. Qed.

Lemma Rgeb_true_iff (a b : R) : Rgeb a b = true <-> a >= b.
Proof. unfold Rgeb; rewrite Rleb_true_iff; lra. Qed.

Lemma Rgeb_false_iff (a b : R) : Rgeb a b = false <-> a < b.
Proof. unfold Rgeb; rewrite Rleb_false_iff; lra. Qed.

(** Decide the comparisons of a goal whose operands are numerals. *)
Ltac decide_cmp :=
  repeat match goal with
  | |- context [Rltb ?a ?b] =>
      first [ rewrite (proj2 (Rltb_true_iff a b)) by lra
            | rewrite (proj2 (Rltb_false_iff a b)) by lra ]
  | |- context [Rleb ?a ?b] =>
      first [ rewrite (proj2 (Rleb_true_iff a b)) by lra
            | rewrite (proj2 (Rleb_false_iff a b)) by lra ]
  | |- context [Rgtb ?a ?b] =>
      first [ rewrite (proj2 (Rgtb_true_iff a b)) by lra
            | rewrite (proj2 (Rgtb_false_iff a b)) by lra ]
  | |- context [Rgeb ?a ?b] =>
      first [ rewrite (proj2 (Rgeb_true_iff a b)) by lra
            | rewrite (proj2 (Rgeb_false_iff a b)) by lra ]
  end.

Lemma sqrt_sum_squares (a b c : R) :
  0 <= c -> a * a + b * b = c * c -> sqrt (a * a + b * b) = c.
Proof. intros Hc H; rewrite H; apply sqrt_square; exact Hc. Qed.

Lemma sum_squares_nonneg (a b : R) : 0 <= a * a + b * b.
Proof. nra. Qed.

(** ** The moving test *)

Lemma isMoving_true_iff (s : Stone) :
  isMoving s = true <-> speed s > MIN_VELOCITY.
Proof. unfold isMoving; apply Rgtb_true_iff. Qed.

Lemma speed_driftingRetired : speed driftingRetired = 1.
Proof.
  unfold speed, driftingRetired; simpl.
  apply sqrt_sum_squares; lra.
Qed.

(** C5, as stated, fails: the collection holding only [driftingRetired] has
    no active stone at all, and [anyMoving] is true on it. *)
Lemma anyMoving_counts_retired_stone :
  ~ (anyMoving [driftingRetired] = true
     <-> exists s, In s [driftingRetired] /\ active s = true
                   /\ speed s > MIN_VELOCITY).
Proof.
  intros [H _].
  destruct H as [s [[<- | []] [Hact _]]]; [| discriminate Hact].
  unfold anyMoving; simpl. rewrite orb_false_r.
  apply isMoving_true_iff. rewrite speed_driftingRetired.
  unfold MIN_VELOCITY; lra.
Qed.

(** C5 (amended): [anyMoving] is true exactly when some stone of the
    collection, active or retired, has a speed above the minimum-velocity
    threshold; the [active] flag is not consulted. *)
Theorem anyMoving_iff_some_stone_fast (stones : list Stone) :
  anyMoving stones = true
  <-> exists s, In s stones /\ speed s > MIN_VELOCITY.
Proof.
  unfold anyMoving. rewrite existsb_exists.
  split; intros [s [Hin Hs]]; exists s; split; auto;
    now apply isMoving_true_iff.
Qed.

(** ** Collisions *)


(** When the impulse branch fires, the stones end exactly [minDist] apart. *)
Lemma resolveCollision_separates (a b : Stone) :
  active a = true -> active b = true ->
  0 < centerDist a b < radius a + radius b ->
  approachSpeed a b > 0 ->
  centerDist (fst (resolveCollision a b)) (snd (resolveCollision a b))
    = radius a + radius b.
Proof.
  intros Ha Hb [Hd0 Hd1] Happ.
  unfold resolveCollision, centerDist, approachSpeed in *.
  rewrite Ha, Hb; simpl negb; simpl orb; cbv iota.
  set (dx := x b - x a) in *. set (dy := y b - y a) in *.
  set (d := sqrt (dx * dx + dy * dy)) in *.
  rewrite (proj2 (Rltb_true_iff d _)) by exact Hd1.
  rewrite (proj2 (Rgtb_true_iff d 0)) by lra.
  simpl andb; cbv iota.
  rewrite (proj2 (Rleb_false_iff _ 0)) by lra.
  simpl.
  assert (Hdd : d * d = dx * dx + dy * dy)
    by (apply sqrt_sqrt, sum_squares_nonneg).
  set (m := radius a + radius b) in *.
  apply sqrt_lem_1; [apply sum_squares_nonneg | lra |].
  fold dx dy.
  replace (x b + (m - d) * (5 / 10) * (dx / d)
           - (x a - (m - d) * (5 / 10) * (dx / d)))
    with (dx * (m / d)) by (unfold dx; field; lra).
  replace (y b + (m - d) * (5 / 10) * (dy / d)
           - (y a - (m - d) * (5 / 10) * (dy / d)))
    with (dy * (m / d)) by (unfold dy; field; lra).
  replace (dx * (m / d) * (dx * (m / d)) + dy * (m / d) * (dy * (m / d)))
    with ((dx * dx + dy * dy) * (m / d) * (m / d)) by ring.
  rewrite <- Hdd. field. lra.
Qed.

(** C6: two active, overlapping ([0 < d < r1 + r2]) and approaching stones
    are at centre distance at least [r1 + r2 - eps] after one
    [resolveCollision] call, for every [eps >= 0]. *)
Theorem resolveCollision_removes_overlap (a b : Stone) (eps : R) :
  active a = true -> active b = true ->
  0 < centerDist a b < radius a + radius b ->
  approachSpeed a b > 0 ->
  0 <= eps ->
  centerDist (fst (resolveCollision a b)) (snd (resolveCollision a b))
    >= radius a + radius b - eps.
Proof.
  intros Ha Hb Hd Happ Heps.
  rewrite (resolveCollision_separates a b Ha Hb Hd Happ). lra.
Qed.

(** ** Synchronisation *)

Lemma snapshotOf_stoneOfData (sd : StoneData) :
  snapshotOf (stoneOfData sd) = sd.
Proof. destruct sd; reflexivity. Qed.

(** C4: handling a [sync-stones] message makes the local stone collection
    exactly the stones of the payload (team, position, velocity, active
    flag), whatever the collection was before, and handling the same
    payload a second time changes nothing. *)
Theorem sync_stones_replaces_and_is_idempotent
    (now now' : R) (payload : list StoneData) (g g' : GameManager) :
  let h := handleRemoteAction now (ActSyncStones payload) in
  map snapshotOf (stones (physics (h g))) = payload
  /\ stones (physics (h g)) = stones (physics (h g'))
  /\ handleRemoteAction now' (ActSyncStones payload) (h g) = h g.
Proof.
  simpl. unfold applyStoneSyncFromRemote, set_stones, set_physics; simpl.
  repeat split.
  rewrite map_map. rewrite <- (map_id payload) at 2.
  apply map_ext, snapshotOf_stoneOfData.
Qed.

(** ** Friction *)

Lemma zoneLoop_existsb (zones : list Zone) (px py r hit friction : R) :
  zoneLoop zones px py r hit friction
  = if inSomeZone zones px py r then hit else friction.
Proof.
  unfold inSomeZone.
  induction zones as [| z rest IH]; simpl; [reflexivity |].
  unfold covers at 1.
  destruct (Rltb _ _); simpl; [reflexivity | exact IH].
Qed.

(** The friction factor [Stone.update] ends up with is the one of the
    rule. *)
Lemma Stone_update_unfold (sw ro : list Zone) (e : R) (s : Stone) :
  active s = true ->
  let f := frictionRule sw ro e (x s + vx s) (y s + vy s) (radius s) in
  Stone_update sw ro e s
  = mkStone (team s) (x s + vx s) (y s + vy s)
      (fst (stopBelowThreshold (vx s * f, vy s * f)))
      (snd (stopBelowThreshold (vx s * f, vy s * f)))
      (radius s) true.
Proof.
  intros Ha f. unfold Stone_update. rewrite Ha; simpl negb; cbv iota.
  rewrite !zoneLoop_existsb.
  assert (Hf : (if inSomeZone sw (x s + vx s) (y s + vy s) (radius s)
                then SWEPT_FRICTION
                else if inSomeZone ro (x s + vx s) (y s + vy s) (radius s)
                     then ROUGH_FRICTION
                     else ICE_FRICTION - (e - 1) * FRICTION_DEGRADATION) = f)
    by reflexivity.
  rewrite Hf. unfold stopBelowThreshold; simpl fst; simpl snd.
  destruct (Rltb _ MIN_VELOCITY); reflexivity.
Qed.

(** C7: one kinematics tick of an active stone multiplies the velocity by
    the friction factor of the rule (swept zone first, else rough zone,
    else [ICE_FRICTION - (currentEnd - 1) * FRICTION_DEGRADATION]), the
    zones being tested against the centre after the position step of the
    tick, and sets both components to zero when the resulting speed is
    below [MIN_VELOCITY]. *)
Theorem Stone_update_applies_friction_rule
    (sw ro : list Zone) (e : R) (s : Stone) :
  active s = true ->
  let s' := Stone_update sw ro e s in
  let f := frictionRule sw ro e (x s + vx s) (y s + vy s) (radius s) in
  (vx s', vy s') = stopBelowThreshold (vx s * f, vy s * f)
  /\ (sqrt ((vx s * f) * (vx s * f) + (vy s * f) * (vy s * f)) < MIN_VELOCITY
      -> vx s' = 0 /\ vy s' = 0)
  /\ (MIN_VELOCITY <= sqrt ((vx s * f) * (vx s * f) + (vy s * f) * (vy s * f))
      -> vx s' = vx s * f /\ vy s' = vy s * f)
  /\ (inSomeZone sw (x s + vx s) (y s + vy s) (radius s) = true
      -> f = SWEPT_FRICTION)
  /\ (inSomeZone sw (x s + vx s) (y s + vy s) (radius s) = false
      -> inSomeZone ro (x s + vx s) (y s + vy s) (radius s) = true
      -> f = ROUGH_FRICTION)
  /\ (inSomeZone sw (x s + vx s) (y s + vy s) (radius s) = false
      -> inSomeZone ro (x s + vx s) (y s + vy s) (radius s) = false
      -> f = ICE_FRICTION - (e - 1) * FRICTION_DEGRADATION).
Proof.
  intros Ha s' f. unfold s'.
  rewrite (Stone_update_unfold sw ro e s Ha). fold f. simpl.
  split; [destruct (stopBelowThreshold _); reflexivity |].
  split; [| split].
  - intros Hlow. unfold stopBelowThreshold; simpl fst; simpl snd.
    rewrite (proj2 (Rltb_true_iff _ _) Hlow). simpl; split; reflexivity.
  - intros Hfast. unfold stopBelowThreshold; simpl fst; simpl snd.
    rewrite (proj2 (Rltb_false_iff _ _) Hfast). simpl; split; reflexivity.
  - unfold f, frictionRule.
    repeat split; intros; repeat match goal with
      | H : inSomeZone _ _ _ _ = _ |- _ => rewrite H; clear H end;
      reflexivity.
Qed.

(** ** Rough ice against swept ice *)

Lemma speed_nonneg (s : Stone) : 0 <= speed s.
Proof. apply sqrt_pos. Qed.

Lemma norm_scale (f a b : R) :
  0 <= f ->
  sqrt ((a * f) * (a * f) + (b * f) * (b * f)) = f * sqrt (a * a + b * b).
Proof.
  intros Hf.
  replace ((a * f) * (a * f) + (b * f) * (b * f))
    with ((f * f) * (a * a + b * b)) by ring.
  rewrite sqrt_mult by (try apply sum_squares_nonneg; nra).
  rewrite sqrt_square by exact Hf. reflexivity.
Qed.

Lemma Stone_update_active (sw ro : list Zone) (e : R) (s : Stone) :
  active (Stone_update sw ro e s) = active s.
Proof.
  unfold Stone_update. destruct (active s) eqn:Ha; simpl; [| exact Ha].
  destruct (Rltb _ MIN_VELOCITY); reflexivity.
Qed.

Lemma ticks_active (n : nat) (sw ro : list Zone) (e : R) (s : Stone) :
  active (ticks n sw ro e s) = active s.
Proof.
  induction n as [| n IH]; [reflexivity |].
  unfold ticks in *; simpl. rewrite Stone_update_active. exact IH.
Qed.

Lemma speed_after_tick (sw ro : list Zone) (e : R) (s : Stone) :
  active s = true ->
  0 <= frictionRule sw ro e (x s + vx s) (y s + vy s) (radius s) ->
  speed (Stone_update sw ro e s)
  = tickSpeed (frictionRule sw ro e (x s + vx s) (y s + vy s) (radius s))
      (speed s).
Proof.
  intros Ha Hf. rewrite (Stone_update_unfold sw ro e s Ha).
  set (f := frictionRule _ _ _ _ _ _) in *.
  unfold speed at 1, stopBelowThreshold, tickSpeed; simpl.
  rewrite (norm_scale f (vx s) (vy s) Hf). fold (speed s).
  destruct (Rltb (f * speed s) MIN_VELOCITY); simpl.
  - replace (0 * 0 + 0 * 0) with 0 by ring. apply sqrt_0.
  - apply norm_scale; exact Hf.
Qed.

(** One tick keeps the order of two speeds when the slower stone also has
    the smaller friction factor, and separates them strictly whenever the
    faster one is not stopped. *)
Lemma tickSpeed_order (fr fs a b : R) :
  0 <= fr -> fr < fs -> 0 <= a -> a <= b ->
  tickSpeed fr a <= tickSpeed fs b
  /\ (tickSpeed fs b > 0 -> tickSpeed fr a < tickSpeed fs b).
Proof.
  intros Hfr Hlt Ha Hab. unfold tickSpeed.
  destruct (Rltb (fr * a) MIN_VELOCITY) eqn:Ea;
    destruct (Rltb (fs * b) MIN_VELOCITY) eqn:Eb;
    try apply Rltb_true_iff in Ea; try apply Rltb_false_iff in Ea;
    try apply Rltb_true_iff in Eb; try apply Rltb_false_iff in Eb;
    unfold MIN_VELOCITY in *.
  - split; lra.
  - split; intros; lra.
  - exfalso. assert (fr * a <= fs * b) by nra. lra.
  - assert (0 < b) by nra. split; [nra | intros _; nra].
Qed.

Lemma friction_onRoughIce (sw ro : list Zone) (e : R) (s : Stone) :
  onRoughIce sw ro s ->
  frictionRule sw ro e (x s + vx s) (y s + vy s) (radius s) = ROUGH_FRICTION.
Proof. intros [Hr Hs]. unfold frictionRule. rewrite Hs, Hr. reflexivity. Qed.

Lemma friction_onSweptIce (sw ro : list Zone) (e : R) (s : Stone) :
  onSweptIce sw s ->
  frictionRule sw ro e (x s + vx s) (y s + vy s) (radius s) = SWEPT_FRICTION.
Proof. intros Hs. unfold frictionRule. rewrite Hs. reflexivity. Qed.

Section RoughAgainstSwept.

Variables (swA roA swB roB : list Zone) (e : R) (s : Stone).
Hypothesis s_active : active s = true.

Let rough (k : nat) : Stone := ticks k swA roA e s.
Let swept (k : nat) : Stone := ticks k swB roB e s.

Lemma rough_tick (k : nat) :
  onRoughIce swA roA (rough k) ->
  speed (rough (S k)) = tickSpeed ROUGH_FRICTION (speed (rough k)).
Proof.
  intros H. unfold rough, ticks; simpl.
  fold (ticks k swA roA e s).
  pose proof (friction_onRoughIce swA roA e _ H) as Hf.
  unfold rough in Hf.
  rewrite speed_after_tick.
  - rewrite Hf. reflexivity.
  - rewrite ticks_active; exact s_active.
  - rewrite Hf. unfold ROUGH_FRICTION; lra.
Qed.

Lemma swept_tick (k : nat) :
  onSweptIce swB (swept k) ->
  speed (swept (S k)) = tickSpeed SWEPT_FRICTION (speed (swept k)).
Proof.
  intros H. unfold swept, ticks; simpl.
  fold (ticks k swB roB e s).
  pose proof (friction_onSweptIce swB roB e _ H) as Hf.
  unfold swept in Hf.
  rewrite speed_after_tick.
  - rewrite Hf. reflexivity.
  - rewrite ticks_active; exact s_active.
  - rewrite Hf. unfold SWEPT_FRICTION; lra.
Qed.

Lemma rough_never_faster (n : nat) :
  (forall k, (k < n)%nat -> onRoughIce swA roA (rough k)) ->
  (forall k, (k < n)%nat -> onSweptIce swB (swept k)) ->
  speed (rough n) <= speed (swept n)
  /\ ((1 <= n)%nat -> speed (swept n) > 0 ->
      speed (rough n) < speed (swept n)).
Proof.
  induction n as [| n IH]; intros HA HB.
  - split; [unfold rough, swept, ticks; simpl; lra | lia].
  - destruct IH as [Hle _]; [intros; apply HA; lia | intros; apply HB; lia |].
    rewrite (rough_tick n) by (apply HA; lia).
    rewrite (swept_tick n) by (apply HB; lia).
    destruct (tickSpeed_order ROUGH_FRICTION SWEPT_FRICTION
                (speed (rough n)) (speed (swept n))) as [H1 H2];
      try (unfold ROUGH_FRICTION, SWEPT_FRICTION; lra);
      try apply speed_nonneg; try exact Hle.
    split; [exact H1 | intros _; exact H2].
Qed.

End RoughAgainstSwept.

(** C9 (amended): for an active stone, a number [n >= 1] of ticks and one
    end number, the stone that is on rough ice (and on no swept zone) at
    each of the [n] ticks is never faster after them than the same stone
    on swept ice at each tick, and it is strictly slower whenever the
    swept stone still has a non-zero speed. *)
Theorem rough_ice_slower_than_swept_ice
    (n : nat) (swA roA swB roB : list Zone) (e : R) (s : Stone) :
  (1 <= n)%nat ->
  active s = true ->
  (forall k, (k < n)%nat -> onRoughIce swA roA (ticks k swA roA e s)) ->
  (forall k, (k < n)%nat -> onSweptIce swB (ticks k swB roB e s)) ->
  speed (ticks n swA roA e s) <= speed (ticks n swB roB e s)
  /\ (speed (ticks n swB roB e s) > 0 ->
      speed (ticks n swA roA e s) < speed (ticks n swB roB e s)).
Proof.
  intros Hn Ha HA HB.
  destruct (rough_never_faster swA roA swB roB e s Ha n HA HB) as [H1 H2].
  split; [exact H1 | intros Hpos; apply H2; assumption].
Qed.

Lemma inSomeZone_patch_slowStone :
  inSomeZone [patchAtSlowStone] (x slowStone + vx slowStone)
    (y slowStone + vy slowStone) (radius slowStone) = true.
Proof.
  unfold inSomeZone, covers, patchAtSlowStone, slowStone, STONE_RADIUS; simpl.
  rewrite (sqrt_sum_squares _ _ (601 / 10000)) by lra.
  decide_cmp. reflexivity.
Qed.

Lemma speed_slowStone : speed slowStone = 601 / 10000.
Proof.
  unfold speed, slowStone; simpl. apply sqrt_sum_squares; lra.
Qed.

Lemma slowStone_onRoughIce : onRoughIce [] [patchAtSlowStone] slowStone.
Proof. split; [apply inSomeZone_patch_slowStone | reflexivity]. Qed.

Lemma slowStone_onSweptIce : onSweptIce [patchAtSlowStone] slowStone.
Proof. apply inSomeZone_patch_slowStone. Qed.

(** C9, as stated, fails: [slowStone] moves (its speed 0.0601 is above the
    threshold), one tick on the rough patch stops it, and one tick on the
    same patch swept stops it as well, so the rough stone is not strictly
    slower. *)
Lemma rough_and_swept_both_stop :
  isMoving slowStone = true
  /\ onRoughIce [] [patchAtSlowStone] (ticks 0 [] [patchAtSlowStone] 1 slowStone)
  /\ onSweptIce [patchAtSlowStone] (ticks 0 [patchAtSlowStone] [] 1 slowStone)
  /\ ~ speed (ticks 1 [] [patchAtSlowStone] 1 slowStone)
       < speed (ticks 1 [patchAtSlowStone] [] 1 slowStone).
Proof.
  split; [| split; [exact slowStone_onRoughIce
                   | split; [exact slowStone_onSweptIce |]]].
  - apply isMoving_true_iff. rewrite speed_slowStone.
    unfold MIN_VELOCITY; lra.
  - unfold ticks; simpl.
    rewrite !speed_after_tick; try reflexivity.
    + rewrite (friction_onRoughIce _ _ _ _ slowStone_onRoughIce).
      rewrite (friction_onSweptIce _ [] 1 _ slowStone_onSweptIce).
      rewrite speed_slowStone.
      unfold tickSpeed, ROUGH_FRICTION, SWEPT_FRICTION, MIN_VELOCITY.
      decide_cmp. lra.
    + rewrite (friction_onSweptIce _ [] 1 _ slowStone_onSweptIce).
      unfold SWEPT_FRICTION; lra.
    + rewrite (friction_onRoughIce _ _ _ _ slowStone_onRoughIce).
      unfold ROUGH_FRICTION; lra.
Qed.

Lemma rough_ice_slower_than_swept_ice_witness :
  speed (ticks 1 [] [patchAtSlowStone] 1 slowStone)
    <= speed (ticks 1 [patchAtSlowStone] [] 1 slowStone)
  /\ (speed (ticks 1 [patchAtSlowStone] [] 1 slowStone) > 0 ->
      speed (ticks 1 [] [patchAtSlowStone] 1 slowStone)
        < speed (ticks 1 [patchAtSlowStone] [] 1 slowStone)).
Proof.
  apply (rough_ice_slower_than_swept_ice 1 [] [patchAtSlowStone]
           [patchAtSlowStone] [] 1 slowStone).
  - lia.
  - reflexivity.
  - intros k Hk. replace k with O by lia. exact slowStone_onRoughIce.
  - intros k Hk. replace k with O by lia. exact slowStone_onSweptIce.
Defined.

Lemma centerDist_striker_struck : centerDist strikerStone struckStone = 20.
Proof.
  unfold centerDist, strikerStone, struckStone; simpl.
  apply sqrt_sum_squares; lra.
Qed.

Lemma approachSpeed_striker_struck : approachSpeed strikerStone struckStone = 1.
Proof.
  unfold approachSpeed. fold (centerDist strikerStone struckStone).
  rewrite centerDist_striker_struck.
  unfold strikerStone, struckStone; simpl. field.
Qed.

Lemma resolveCollision_removes_overlap_witness :
  centerDist (fst (resolveCollision strikerStone struckStone))
             (snd (resolveCollision strikerStone struckStone))
    >= radius strikerStone + radius struckStone - 1 / 1000.
Proof.
  apply (resolveCollision_removes_overlap strikerStone struckStone (1 / 1000)).
  - reflexivity.
  - reflexivity.
  - rewrite centerDist_striker_struck. simpl. unfold STONE_RADIUS. lra.
  - rewrite approachSpeed_striker_struck. lra.
  - lra.
Defined.

Lemma Stone_update_applies_friction_rule_witness :
  let s' := Stone_update [patchAtSlowStone] [] 1 slowStone in
  let f := frictionRule [patchAtSlowStone] [] 1
             (x slowStone + vx slowStone) (y slowStone + vy slowStone)
             (radius slowStone) in
  (vx s', vy s')
    = stopBelowThreshold (vx slowStone * f, vy slowStone * f).
Proof.
  exact (proj1 (Stone_update_applies_friction_rule
                  [patchAtSlowStone] [] 1 slowStone eq_refl)).
Defined.

(** ** Scoring *)

Lemma team_eqb_eq (a b : Team) : team_eqb a b = true <-> a = b.
Proof. destruct a, b; simpl; split; intros; congruence. Qed.

Lemma team_eqb_neq (a b : Team) : team_eqb a b = false <-> a <> b.
Proof. destruct a, b; simpl; split; intros; congruence. Qed.

Lemma insertByDistance_perm (e : HouseEntry) (l : list HouseEntry) :
  Permutation (insertByDistance e l) (e :: l).
Proof.
  induction l as [| h t IH]; simpl; [apply Permutation_refl |].
  destruct (Rleb _ _); [apply Permutation_refl |].
  apply perm_trans with (h :: e :: t); [now apply perm_skip | apply perm_swap].
Qed.

Lemma sortByDistance_perm (l : list HouseEntry) :
  Permutation (sortByDistance l) l.
Proof.
  induction l as [| e t IH]; simpl; [apply perm_nil |].
  apply perm_trans with (e :: sortByDistance t);
    [apply insertByDistance_perm | now apply perm_skip].
Qed.

Lemma insertByDistance_sorted (e : HouseEntry) (l : list HouseEntry) :
  StronglySorted leDistance l ->
  StronglySorted leDistance (insertByDistance e l).
Proof.
  induction 1 as [| h t Hs IH Hall]; simpl.
  - constructor; constructor.
  - destruct (Rleb (distance e) (distance h)) eqn:E.
    + apply Rleb_true_iff in E.
      constructor; [constructor; assumption |].
      constructor; [exact E |].
      eapply Forall_impl; [| exact Hall].
      intros a Ha; unfold leDistance in *; lra.
    + apply Rleb_false_iff in E.
      constructor; [exact IH |].
      apply (Permutation_Forall (x := e :: t)).
      * apply Permutation_sym, insertByDistance_perm.
      * constructor; [unfold leDistance; lra | exact Hall].
Qed.

Lemma sortByDistance_sorted (l : list HouseEntry) :
  StronglySorted leDistance (sortByDistance l).
Proof.
  induction l as [| e t IH]; simpl;
    [constructor | now apply insertByDistance_sorted].
Qed.

(** The counting loop is a count. *)
Lemma count_loop (p : HouseEntry -> bool) (l : list HouseEntry) (n : Z) :
  fold_left (fun pts s => if p s then (pts + 1)%Z else pts) l n
  = (n + Z.of_nat (List.length (filter p l)))%Z.
Proof.
  revert n; induction l as [| a t IH]; intros n; simpl; [lia |].
  rewrite IH. destruct (p a); simpl List.length; lia.
Qed.

Lemma filter_length_perm {A} (p : A -> bool) (l l' : list A) :
  Permutation l l' ->
  List.length (filter p l) = List.length (filter p l').
Proof.
  induction 1 as [| a l l' _ IH | a b l | l l' l'' _ IH1 _ IH2]; simpl.
  - reflexivity.
  - destruct (p a); simpl; congruence.
  - destruct (p a), (p b); reflexivity.
  - congruence.
Qed.


Lemma forallb_perm {A} (p : A -> bool) (l l' : list A) :
  Permutation l l' -> forallb p l = forallb p l'.
Proof.
  intros HP.
  destruct (forallb p l) eqn:E1; destruct (forallb p l') eqn:E2;
    try reflexivity.
  - rewrite forallb_forall in E1.
    assert (forallb p l' = true) as E3.
    { apply forallb_forall. intros a Ha. apply E1.
      eapply Permutation_in; [apply Permutation_sym; exact HP | exact Ha]. }
    congruence.
  - rewrite forallb_forall in E2.
    assert (forallb p l = true) as E3.
    { apply forallb_forall. intros a Ha. apply E2.
      eapply Permutation_in; [exact HP | exact Ha]. }
    congruence.
Qed.

Lemma pointsFor_perm (t : Team) (l l' : list HouseEntry) :
  Permutation l l' -> pointsFor t l = pointsFor t l'.
Proof.
  intros HP. unfold pointsFor. f_equal.
  rewrite (filter_length_perm _ _ _ HP).
  f_equal. apply filter_ext. intros e. unfold countsFor, beatsOpponents.
  f_equal. apply forallb_perm. exact HP.
Qed.

(** In a list sorted by distance, the first entry of another team is the
    closest one, so being closer than it is being closer than all. *)
Lemma closerThan_first_opponent (t : Team) (l : list HouseEntry)
    (e : HouseEntry) :
  StronglySorted leDistance l ->
  closerThan
    (option_map distance
       (find (fun s => negb (team_eqb (entry_team s) t)) l)) e
  = beatsOpponents t l e.
Proof.
  unfold beatsOpponents.
  induction 1 as [| h tl Hs IH Hall]; simpl; [reflexivity |].
  destruct (team_eqb (entry_team h) t); simpl; [exact IH |].
  destruct (Rltb (distance e) (distance h)) eqn:E; simpl; [| reflexivity].
  apply Rltb_true_iff in E. symmetry. apply forallb_forall.
  intros o Ho. rewrite Forall_forall in Hall. specialize (Hall o Ho).
  unfold leDistance in Hall.
  apply orb_true_iff; right. apply Rltb_true_iff. lra.
Qed.

Lemma inHouseOf_entries (stones : list Stone) :
  inHouseOf stones = sortByDistance (map entryOf (filter inHouseb stones)).
Proof. reflexivity. Qed.

(** [calculateScore] in terms of the head of the sorted entries and of an
    order-independent count. *)
Lemma calculateScore_entries (stones : list Stone) :
  calculateScore stones
  = match sortByDistance (map entryOf (filter inHouseb stones)) with
    | [] => mkResult None 0
    | first :: _ =>
        mkResult (Some (entry_team first))
          (pointsFor (entry_team first) (map entryOf (filter inHouseb stones)))
    end.
Proof.
  unfold calculateScore. rewrite inHouseOf_entries.
  set (E := map entryOf (filter inHouseb stones)).
  pose proof (sortByDistance_sorted E) as Hsorted.
  pose proof (sortByDistance_perm E) as Hperm.
  destruct (sortByDistance E) as [| first rest] eqn:HS; [reflexivity |].
  f_equal. rewrite count_loop, Z.add_0_l.
  rewrite <- (pointsFor_perm _ _ _ Hperm). unfold pointsFor.
  set (l := first :: rest) in *.
  do 2 f_equal. apply filter_ext. intros e. unfold countsFor. f_equal.
  apply closerThan_first_opponent. exact Hsorted.
Qed.

(** The head of the sorted entries is an entry of minimal distance. *)
Lemma sorted_head_closest (l : list HouseEntry) (first : HouseEntry)
    (rest : list HouseEntry) :
  sortByDistance l = first :: rest ->
  In first l /\ forall e, In e l -> distance first <= distance e.
Proof.
  intros HS.
  pose proof (sortByDistance_sorted l) as Hsorted.
  pose proof (sortByDistance_perm l) as Hperm.
  rewrite HS in Hsorted, Hperm. split.
  - eapply Permutation_in; [exact Hperm | left; reflexivity].
  - intros e He.
    apply (Permutation_in _ (Permutation_sym Hperm)) in He.
    inversion Hsorted as [| ? ? _ Hall]; subst.
    destruct He as [<- | He]; [lra |].
    rewrite Forall_forall in Hall. exact (Hall e He).
Qed.

Lemma sortByDistance_nil (l : list HouseEntry) :
  sortByDistance l = [] -> l = [].
Proof.
  intros H. pose proof (sortByDistance_perm l) as HP. rewrite H in HP.
  now apply Permutation_nil.
Qed.

Lemma filter_map_length {A B} (f : A -> B) (p : B -> bool) (q : A -> bool)
    (l : list A) :
  (forall a, p (f a) = q a) ->
  List.length (filter p (map f l)) = List.length (filter q l).
Proof.
  intros Hext. induction l as [| a tl IH]; simpl; [reflexivity |].
  rewrite Hext. destruct (q a); simpl; rewrite IH; reflexivity.
Qed.

(** The count on entries is the count on stones. *)
Lemma pointsFor_stones (t : Team) (house : list Stone) :
  pointsFor t (map entryOf house)
  = Z.of_nat (List.length (filter (scoringStone t house) house)).
Proof.
  unfold pointsFor. f_equal. apply filter_map_length.
  intros s. unfold countsFor, scoringStone, beatsOpponents. simpl.
  f_equal. induction house as [| o tl IH]; simpl; [reflexivity |].
  rewrite IH. reflexivity.
Qed.

Lemma inHouseb_true_iff (s : Stone) :
  inHouseb s = true
  <-> active s = true
      /\ distToButton s <= houseRadius SHEET + STONE_RADIUS.
Proof.
  unfold inHouseb. rewrite andb_true_iff, Rleb_true_iff. reflexivity.
Qed.

Lemma calculateScore_blank (stones : list Stone) :
  filter inHouseb stones = [] -> calculateScore stones = mkResult None 0.
Proof.
  intros H. rewrite calculateScore_entries, H. reflexivity.
Qed.

Lemma calculateScore_closest (stones : list Stone) :
  filter inHouseb stones <> [] ->
  exists w,
    In w (filter inHouseb stones)
    /\ (forall s, In s (filter inHouseb stones) ->
                  distToButton w <= distToButton s)
    /\ calculateScore stones
       = mkResult (Some (team w))
           (Z.of_nat (List.length
              (filter (scoringStone (team w) (filter inHouseb stones))
                 (filter inHouseb stones)))).
Proof.
  intros Hne. rewrite calculateScore_entries.
  set (house := filter inHouseb stones) in *.
  destruct (sortByDistance (map entryOf house)) as [| first rest] eqn:HS.
  - apply sortByDistance_nil in HS. apply map_eq_nil in HS. contradiction.
  - destruct (sorted_head_closest _ _ _ HS) as [Hin Hmin].
    apply in_map_iff in Hin. destruct Hin as [w [Hw Hin]].
    exists w. split; [exact Hin | split].
    + intros s Hs.
      specialize (Hmin (entryOf s) (in_map entryOf _ _ Hs)).
      rewrite <- Hw in Hmin. exact Hmin.
    + rewrite <- Hw. simpl entry_team. rewrite pointsFor_stones. reflexivity.
Qed.

Lemma calculateScore_three_stones (r1 r2 y1 : Stone) :
  team r1 = Red -> team r2 = Red -> team y1 = Yellow ->
  active r1 = true -> active r2 = true -> active y1 = true ->
  distToButton r1 = 10 -> distToButton r2 = 20 -> distToButton y1 = 15 ->
  calculateScore [r1; r2; y1] = mkResult (Some Red) 1.
Proof.
  intros T1 T2 T3 A1 A2 A3 D1 D2 D3.
  rewrite calculateScore_entries.
  assert (H : filter inHouseb [r1; r2; y1] = [r1; r2; y1]).
  { simpl. unfold inHouseb. rewrite A1, A2, A3, D1, D2, D3.
    unfold SHEET, STONE_RADIUS; simpl. decide_cmp. reflexivity. }
  rewrite H. unfold entryOf; simpl map.
  rewrite T1, T2, T3, D1, D2, D3.
  simpl sortByDistance. decide_cmp. simpl. decide_cmp.
  unfold pointsFor, countsFor, beatsOpponents. simpl.
  decide_cmp. reflexivity.
Qed.

(** C2: [calculateScore] works on exactly the active stones within the
    house outer radius plus one stone radius of the button; with none it
    returns the blank result; otherwise it returns the team of a closest
    such stone and the number of that team's in-house stones strictly
    closer than every in-house stone of the other team.  Two red stones at
    distances 10 and 20 and a yellow one at 15 give red, 1 point. *)
Theorem calculateScore_closest_team_and_count :
  (forall stones,
     let house := filter inHouseb stones in
     (forall s, In s house
                <-> In s stones /\ active s = true
                    /\ distToButton s <= houseRadius SHEET + STONE_RADIUS)
     /\ (house = [] -> calculateScore stones = mkResult None 0)
     /\ (house <> [] ->
         exists w,
           In w house
           /\ (forall s, In s house -> distToButton w <= distToButton s)
           /\ calculateScore stones
              = mkResult (Some (team w))
                  (Z.of_nat (List.length
                     (filter (scoringStone (team w) house) house)))))
  /\ (forall r1 r2 y1,
        team r1 = Red -> team r2 = Red -> team y1 = Yellow ->
        active r1 = true -> active r2 = true -> active y1 = true ->
        distToButton r1 = 10 -> distToButton r2 = 20 ->
        distToButton y1 = 15 ->
        calculateScore [r1; r2; y1] = mkResult (Some Red) 1).
Proof.
  split; [| exact calculateScore_three_stones].
  intros stones house. split; [| split].
  - intros s. unfold house. rewrite filter_In, inHouseb_true_iff. reflexivity.
  - apply calculateScore_blank.
  - apply calculateScore_closest.
Qed.

Lemma distToButton_on_centre_line (t : Team) (py : R) :
  120 <= py -> distToButton (newStone t 120 py) = py - 120.
Proof.
  intros H. unfold distToButton, dist, pos, houseCenter, newStone, SHEET; simpl.
  apply sqrt_sum_squares; [lra | nra].
Qed.

Lemma calculateScore_closest_team_and_count_witness :
  calculateScore [redNear; redFar; yellowMid] = mkResult (Some Red) 1.
Proof.
  apply (proj2 calculateScore_closest_team_and_count redNear redFar yellowMid);
    try reflexivity;
    unfold redNear, redFar, yellowMid;
    rewrite distToButton_on_centre_line; lra.
Defined.

(** ** Scoring and the order of the stones *)











(** ** Free guard zone *)

Lemma sqrt_gt_of_square (a c : R) : 0 <= c -> c * c < a -> sqrt a > c.
Proof.
  intros Hc H. apply Rlt_gt.
  replace c with (sqrt (c * c)) by (apply sqrt_square; exact Hc).
  apply sqrt_lt_1; nra.
Qed.

Lemma nth_error_last_app {A} (l : list A) (a : A) :
  nth_error (l ++ [a]) (List.length (l ++ [a]) - 1) = Some a.
Proof.
  rewrite length_app; simpl.
  replace (List.length l + 1 - 1)%nat with (List.length l) by lia.
  rewrite nth_error_app2 by lia. rewrite Nat.sub_diag. reflexivity.
Qed.

(** When the protected stone is re-created, it is pushed behind the thrown
    stone: the last stone of the array is then the re-created one, its
    team is not [currentTeam], and the array is otherwise left as it was. *)
Lemma fgzStep_recreate (currentTeam : Team) (stones : list Stone)
    (pre : StoneData) :
  sd_team pre <> currentTeam ->
  sd_active pre = true ->
  inFGZ pre = true ->
  find (stillThere pre) stones = None ->
  findIndex (movedAway pre) stones = None ->
  fgzStep currentTeam stones pre
  = stones ++ [newStone (sd_team pre) (sd_x pre) (sd_y pre)].
Proof.
  intros Ht Ha Hz Hf Hd. unfold fgzStep.
  rewrite (proj2 (team_eqb_neq _ _) Ht), Ha, Hz, Hf, Hd. simpl negb.
  cbv iota. rewrite nth_error_last_app. simpl team.
  rewrite (proj2 (team_eqb_neq _ _) Ht). reflexivity.
Qed.

Lemma updateAt_app_left {A} (i : nat) (f : A -> A) (l r : list A) :
  (i < List.length l)%nat -> updateAt i f (l ++ r) = updateAt i f l ++ r.
Proof.
  revert i; induction l as [| a t IH]; intros [| j] H; simpl in *;
    try lia; [reflexivity |].
  rewrite IH by lia. reflexivity.
Qed.

Lemma updateAt_last {A} (f : A -> A) (l : list A) (a : A) :
  updateAt (List.length l) f (l ++ [a]) = l ++ [f a].
Proof.
  induction l as [| b t IH]; simpl; [reflexivity | rewrite IH; reflexivity].
Qed.

Lemma findIndex_app_left {A} (p : A -> bool) (l : list A) (a : A) (i : nat) :
  p a = false -> findIndex p (l ++ [a]) = Some i -> (i < List.length l)%nat.
Proof.
  intros Ha. revert i. induction l as [| b t IH]; intros i H; simpl in *.
  - rewrite Ha in H. discriminate H.
  - destruct (p b); [injection H as <-; lia |].
    destruct (findIndex p (t ++ [a])) as [j |]; [| discriminate H].
    injection H as <-. specialize (IH j eq_refl). lia.
Qed.

(** X15: the teleport branch of the free-guard-zone rule: when the thrown
    stone is the last one of the array and a displaced stone of the
    protected team is found, that stone is put back at the snapshot
    position with zero velocity and the thrown stone is retired; nothing
    is added to the array. *)
Lemma fgzStep_teleport (currentTeam : Team) (front : list Stone)
    (thrown : Stone) (pre : StoneData) (i : nat) :
  team thrown = currentTeam ->
  sd_team pre <> currentTeam ->
  sd_active pre = true ->
  inFGZ pre = true ->
  find (stillThere pre) (front ++ [thrown]) = None ->
  findIndex (movedAway pre) (front ++ [thrown]) = Some i ->
  fgzStep currentTeam (front ++ [thrown]) pre
  = updateAt i (teleport (sd_x pre) (sd_y pre)) front ++ [retire thrown].
Proof.
  intros Hth Ht Ha Hz Hf Hd. unfold fgzStep.
  rewrite (proj2 (team_eqb_neq _ _) Ht), Ha, Hz, Hf, Hd. simpl negb.
  cbv iota zeta.
  assert (Hi : (i < List.length front)%nat).
  { apply (findIndex_app_left (movedAway pre) front thrown i); [| exact Hd].
    unfold movedAway. rewrite Hth.
    rewrite (proj2 (team_eqb_neq currentTeam (sd_team pre))) by congruence.
    reflexivity. }
  rewrite (updateAt_app_left _ _ _ _ Hi).
  set (front' := updateAt i (teleport (sd_x pre) (sd_y pre)) front).
  assert (Hlen : (List.length (front' ++ [thrown]) - 1)%nat = List.length front').
  { rewrite length_app; simpl; lia. }
  rewrite nth_error_last_app, Hlen, Hth.
  rewrite (proj2 (team_eqb_eq currentTeam currentTeam) eq_refl).
  apply updateAt_last.
Qed.

Lemma guardBefore_inFGZ : inFGZ guardBefore = true.
Proof.
  unfold inFGZ, guardBefore, houseCenter, SHEET, STONE_RADIUS; simpl.
  apply andb_true_iff; split.
  - apply Rleb_true_iff; lra.
  - apply Rgtb_true_iff. apply Rlt_gt, sqrt_gt_of_square; lra.
Qed.

(** C1 fails in the re-created case: on the settled state [afterTakeOut]
    (second throw of the end, the yellow guard knocked out of play) the
    guard is re-created at its snapshot position, but the thrown stone is
    left active. *)
Theorem fgz_recreate_leaves_thrown_stone_active :
  (totalThrown afterTakeOut <= FGZ_STONE_COUNT)%Z
  /\ stones (physics (enforceFreeGuardZone afterTakeOut))
     = [guardKnockedOut; thrownStone; newStone Yellow 10 150]
  /\ nth_error (stones (physics (enforceFreeGuardZone afterTakeOut))) 1
     = Some thrownStone
  /\ active thrownStone = true.
Proof.
  assert (H : stones (physics (enforceFreeGuardZone afterTakeOut))
              = [guardKnockedOut; thrownStone; newStone Yellow 10 150]).
  { unfold enforceFreeGuardZone, afterTakeOut; simpl.
    rewrite fgzStep_recreate; try reflexivity.
    - discriminate.
    - exact guardBefore_inFGZ.
    - simpl. unfold stillThere, guardBefore, guardKnockedOut; simpl.
      replace (Rabs (-7 - 10)) with 17
        by (rewrite Rabs_left; lra).
      decide_cmp. rewrite !andb_false_r. reflexivity. }
  split; [unfold totalThrown, afterTakeOut, FGZ_STONE_COUNT; simpl; lia |].
  split; [exact H |]. rewrite H. split; reflexivity.
Qed.

(** ** Throw counting and the end of an end *)

Lemma totalThrown_incThrown (t : Team) (g : GameManager) :
  totalThrown (incThrown t g) = (totalThrown g + 1)%Z.
Proof.
  unfold totalThrown, incThrown. destruct g; simpl.
  destruct stonesThrown0 as [a b]; destruct t; simpl; lia.
Qed.

Lemma endEnd_effect (g : GameManager) :
  stonesThrown (endEnd g) = stonesThrown g /\ state (endEnd g) = end_over.
Proof.
  unfold endEnd.
  destruct (result_team (calculateScore (stones (physics g))));
    split; reflexivity.
Qed.

Lemma nextTurn_effect (now : R) (g : GameManager) :
  stonesThrown (nextTurn now g) = stonesThrown g
  /\ state (nextTurn now g)
     = if (totalThrown g >=? 16)%Z then end_over else cooldown.
Proof.
  unfold nextTurn. destruct (totalThrown g >=? 16)%Z.
  - apply endEnd_effect.
  - destruct (at_team (stonesThrown g) _ <? 8)%Z; split; reflexivity.
Qed.

Lemma totalThrown_nextTurn (now : R) (g : GameManager) :
  totalThrown (nextTurn now g) = totalThrown g.
Proof.
  unfold totalThrown. rewrite (proj1 (nextTurn_effect now g)). reflexivity.
Qed.

Lemma launchStoneFromAction_effect (t : Team) (avx avy : R) (g : GameManager) :
  totalThrown (launchStoneFromAction t avx avy g) = (totalThrown g + 1)%Z
  /\ state (launchStoneFromAction t avx avy g) = waiting.
Proof.
  split; [| reflexivity].
  unfold launchStoneFromAction; cbv zeta.
  change (totalThrown (set_sweepEnergy MAX_SWEEP_ENERGY
            (set_state waiting (incThrown t ?g'))))
    with (totalThrown (incThrown t g')).
  rewrite totalThrown_incThrown. reflexivity.
Qed.

Lemma launchStone_effect (finalAngle : R) (g : GameManager) :
  match aimTarget g with
  | Some _ =>
      totalThrown (launchStone finalAngle g) = (totalThrown g + 1)%Z
      /\ state (launchStone finalAngle g) = waiting
  | None => launchStone finalAngle g = g
  end.
Proof.
  unfold launchStone. destruct (aimTarget g); [| reflexivity].
  split; [| reflexivity]. cbv zeta.
  change (totalThrown (set_sweepEnergy MAX_SWEEP_ENERGY
            (set_state waiting (incThrown ?t ?g'))))
    with (totalThrown (incThrown t g')).
  rewrite totalThrown_incThrown. reflexivity.
Qed.

Lemma enforceFreeGuardZone_effect (g : GameManager) :
  stonesThrown (enforceFreeGuardZone g) = stonesThrown g
  /\ state (enforceFreeGuardZone g) = state g.
Proof.
  unfold enforceFreeGuardZone.
  destruct (totalThrown g >? FGZ_STONE_COUNT)%Z; split; reflexivity.
Qed.

Lemma cooldownTimer_effect (now : R) (g : GameManager) :
  stonesThrown (cooldownTimer now g) = stonesThrown g
  /\ (state (cooldownTimer now g) = state g
      \/ (state g = cooldown /\ state (cooldownTimer now g) = aiming)).
Proof.
  unfold cooldownTimer.
  destruct (phase_eqb (state g) cooldown) eqn:E;
    [| split; [reflexivity | left; reflexivity]].
  destruct (Rgeb _ _); [| split; [reflexivity | left; reflexivity]].
  split; [reflexivity | right]. split; [| reflexivity].
  destruct (state g); try discriminate E; reflexivity.
Qed.

Lemma simulationStep_effect (now : R) (g : GameManager) :
  stonesThrown (simulationStep now g) = stonesThrown g
  /\ (state (simulationStep now g) = state g
      \/ (state g = waiting
          /\ state (simulationStep now g)
             = if (totalThrown g >=? 16)%Z then end_over else cooldown)).
Proof.
  unfold simulationStep.
  destruct (phase_eqb (state g) waiting) eqn:E;
    [| split; [reflexivity | left; reflexivity]].
  assert (Es : state g = waiting)
    by (destruct (state g); try discriminate E; reflexivity).
  cbv zeta.
  match goal with
  | |- context [negb (anyMoving ?l)] => destruct (negb (anyMoving l))
  end; [| split; [reflexivity | left; reflexivity]].
  set (g1 := set_physics _ g).
  set (g2 := if isLaunchOwner g1 then set_isLaunchOwner false g1 else g1).
  assert (H2 : stonesThrown g2 = stonesThrown g)
    by (unfold g2; destruct (isLaunchOwner g1); reflexivity).
  set (g3 := set_isSweeping false (checkHogLine (enforceFreeGuardZone g2))).
  assert (H3 : stonesThrown g3 = stonesThrown g).
  { unfold g3. change (stonesThrown (enforceFreeGuardZone g2) = stonesThrown g).
    rewrite (proj1 (enforceFreeGuardZone_effect g2)). exact H2. }
  destruct (nextTurn_effect now g3) as [Hn1 Hn2].
  split; [rewrite Hn1; exact H3 |].
  right. split; [exact Es |]. rewrite Hn2.
  unfold totalThrown. rewrite H3. reflexivity.
Qed.

Lemma updateAfterTimer_effect (now : R) (g : GameManager) :
  totalThrown (updateAfterTimer now g) = totalThrown g
  /\ (state (updateAfterTimer now g) = state g
      \/ (state g = cooldown /\ state (updateAfterTimer now g) = aiming)
      \/ (state g = waiting
          /\ state (updateAfterTimer now g) = phaseAfterTurn (totalThrown g))).
Proof.
  unfold updateAfterTimer, phaseAfterTurn.
  destruct (cooldownTimer_effect now g) as [Hc1 Hc2].
  destruct (simulationStep_effect now (cooldownTimer now g)) as [Hs1 Hs2].
  assert (Ht : totalThrown (cooldownTimer now g) = totalThrown g)
    by (unfold totalThrown; rewrite Hc1; reflexivity).
  split; [unfold totalThrown in *; rewrite Hs1, Hc1; reflexivity |].
  destruct Hs2 as [Hs2 | [Hw Hs2]].
  - rewrite Hs2. destruct Hc2 as [Hc2 | Hc2]; [left | right; left]; exact Hc2.
  - rewrite Hs2, Ht. destruct Hc2 as [Hc2 | [_ Hc2]].
    + right; right. split; [congruence | reflexivity].
    + rewrite Hc2 in Hw. discriminate Hw.
Qed.

Lemma phase_eqb_eq (a b : Phase) : phase_eqb a b = true <-> a = b.
Proof. destruct a, b; simpl; split; intros H; congruence. Qed.

(** What [update()] does to the throw count and the phase. *)
Lemma update_effect (now : R) (g : GameManager) :
  let thrown := isThrow (Frame now) g in
  let g' := handle (Frame now) g in
  totalThrown g' = (totalThrown g + (if thrown then 1 else 0))%Z
  /\ ((thrown = true /\ (state g = aiming \/ state g = aim_locked)
       /\ state g' = phaseAfterTurn (totalThrown g'))
      \/ (thrown = false
          /\ (state g' = state g
              \/ (state g = cooldown /\ state g' = aiming)
              \/ (state g = waiting
                  /\ state g' = phaseAfterTurn (totalThrown g))))).
Proof.
  unfold handle, isThrow.
  destruct (phase_eqb (state g) lobby) eqn:El; simpl negb; simpl andb.
  { split; [lia | right; split; [reflexivity | left; reflexivity]]. }
  unfold update.
  destruct ((phase_eqb (state g) aiming || phase_eqb (state g) aim_locked)
            && isMyTurn g) eqn:Eg; simpl andb.
  - destruct (Rgeb _ _) eqn:Et.
    + set (g1 := set_power 0 (set_aimTarget None (set_isDragging false
                   (incThrown (currentTeam g) g)))).
      assert (H1 : totalThrown g1 = (totalThrown g + 1)%Z)
        by (apply totalThrown_incThrown).
      destruct (nextTurn_effect now g1) as [Hn1 Hn2].
      rewrite totalThrown_nextTurn, H1.
      split; [reflexivity | left]. split; [reflexivity |]. split.
      * apply andb_true_iff in Eg. destruct Eg as [Eg _].
        apply orb_true_iff in Eg.
        destruct Eg as [Eg | Eg]; apply phase_eqb_eq in Eg; auto.
      * rewrite Hn2, H1. reflexivity.
    + destruct (updateAfterTimer_effect now g) as [Hu1 Hu2].
      split; [rewrite Hu1; lia | right; split; [reflexivity | exact Hu2]].
  - destruct (updateAfterTimer_effect now g) as [Hu1 Hu2].
    split; [rewrite Hu1; lia | right; split; [reflexivity | exact Hu2]].
Qed.

(** What one event does to the throw count and to the phase. *)
Lemma handle_effect (e : Event) (g : GameManager) :
  let g' := handle e g in
  totalThrown g' = (totalThrown g + (if isThrow e g then 1 else 0))%Z
  /\ ((isThrow e g = true
       /\ (isRemoteThrow e = true \/ state g = aiming \/ state g = aim_locked)
       /\ (state g' = waiting \/ state g' = phaseAfterTurn (totalThrown g')))
      \/ (isThrow e g = false
          /\ (state g' = state g
              \/ (state g = cooldown /\ state g' = aiming)
              \/ (state g = aiming /\ state g' = aim_locked)
              \/ (state g = aim_locked /\ state g' = aiming)
              \/ (state g = waiting
                  /\ state g' = phaseAfterTurn (totalThrown g))))).
Proof.
  assert (Hsame : forall g' : GameManager,
            stonesThrown g' = stonesThrown g -> state g' = state g ->
            totalThrown g' = (totalThrown g + 0)%Z
            /\ ((false = true
                 /\ (false = true \/ state g = aiming \/ state g = aim_locked)
                 /\ (state g' = waiting
                     \/ state g' = phaseAfterTurn (totalThrown g')))
                \/ (false = false
                    /\ (state g' = state g
                        \/ (state g = cooldown /\ state g' = aiming)
                        \/ (state g = aiming /\ state g' = aim_locked)
                        \/ (state g = aim_locked /\ state g' = aiming)
                        \/ (state g = waiting
                            /\ state g' = phaseAfterTurn (totalThrown g)))))).
  { intros g' Hst Hs. unfold totalThrown. rewrite Hst.
    split; [lia | right; split; [reflexivity | left; exact Hs]]. }
  destruct e as [now | gp | gp newAim dragPower | | ratio | finalAngle |
                 | now action | st]; cbv zeta.
  - (* Frame *)
    destruct (update_effect now g) as [Ht Hs]. split; [exact Ht |].
    destruct Hs as [[H1 [H2 H3]] | [H1 H2]].
    + left. split; [exact H1 |]. split; [right; exact H2 | right; exact H3].
    + right. split; [exact H1 |].
      destruct H2 as [H2 | [H2 | H2]]; auto 6.
  - (* MouseDown *)
    simpl. unfold onDown.
    destruct (phase_eqb (state g) aiming && isMyTurn g);
      [apply Hsame; reflexivity |].
    destruct (phase_eqb (state g) waiting && Rgtb (sweepEnergy g) 0);
      apply Hsame; reflexivity.
  - (* MouseMove *)
    simpl. unfold onMove.
    destruct (phase_eqb (state g) waiting).
    + destruct (isSweeping g && Rgtb (sweepEnergy g) 0);
        [| apply Hsame; reflexivity].
      destruct (Rleb _ 0); apply Hsame; reflexivity.
    + destruct (negb (isDragging g) || negb (phase_eqb (state g) aiming));
        [apply Hsame; reflexivity |].
      destruct newAim; apply Hsame; reflexivity.
  - (* MouseUp *)
    simpl. unfold onUp.
    destruct (isSweeping g); [apply Hsame; reflexivity |].
    destruct (negb (isDragging g) || negb (phase_eqb (state g) aiming)
              || negb (isMyTurn g)) eqn:Eg; [apply Hsame; reflexivity |].
    destruct (aimTarget (set_isDragging false g)) eqn:Ea;
      [| apply Hsame; reflexivity].
    split; [unfold totalThrown; simpl; lia |].
    right. split; [reflexivity |]. right; right; left.
    split; [| reflexivity].
    apply orb_false_iff in Eg. destruct Eg as [Eg _].
    apply orb_false_iff in Eg. destruct Eg as [_ Eg].
    apply negb_false_iff, phase_eqb_eq in Eg. exact Eg.
  - (* SliderSet *)
    apply Hsame; reflexivity.
  - (* LaunchClick *)
    simpl. unfold onLaunchClick.
    destruct (phase_eqb (state g) aim_locked) eqn:El; simpl negb; cbv iota;
      [| apply Hsame; reflexivity].
    apply phase_eqb_eq in El.
    set (g1 := if Rltb (power g) (3 / 100) then set_power (3 / 100) g else g).
    assert (H1 : stonesThrown g1 = stonesThrown g /\ aimTarget g1 = aimTarget g)
      by (unfold g1; destruct (Rltb _ _); split; reflexivity).
    destruct H1 as [H1 H1'].
    pose proof (launchStone_effect finalAngle g1) as HL. rewrite H1' in HL.
    destruct (aimTarget g) eqn:Ea.
    + destruct HL as [HL1 HL2]. rewrite HL1. unfold totalThrown at 1.
      rewrite H1. split; [reflexivity |].
      left. split; [reflexivity |]. split; [auto | left; exact HL2].
    + rewrite HL. apply Hsame; [exact H1 |].
      unfold g1; destruct (Rltb _ _); reflexivity.
  - (* CancelClick *)
    simpl. unfold onCancelClick.
    destruct (phase_eqb (state g) aim_locked) eqn:El; simpl negb; cbv iota;
      [| apply Hsame; reflexivity].
    apply phase_eqb_eq in El.
    split; [unfold totalThrown; simpl; lia |].
    right. split; [reflexivity |]. right; right; right; left.
    split; [exact El | reflexivity].
  - (* Remote *)
    destruct action as [t avx avy apower aim zones | px py | t | sd |];
      try (apply (Hsame (handle (Remote now _) g)); reflexivity); simpl.
    + match goal with
      | |- context [launchStoneFromAction t avx avy ?g1] =>
          destruct (launchStoneFromAction_effect t avx avy g1) as [HL1 HL2];
          assert (H1 : totalThrown g1 = totalThrown g)
            by (destruct zones; reflexivity)
      end.
      rewrite HL1, H1. split; [reflexivity |].
      left. split; [reflexivity |]. split; [auto | left; exact HL2].
    + destruct (nextTurn_effect now (incThrown t g)) as [Hn1 Hn2].
      rewrite totalThrown_nextTurn, totalThrown_incThrown.
      split; [reflexivity |].
      left. split; [reflexivity |]. split; [auto | right].
      rewrite Hn2, totalThrown_incThrown. reflexivity.
  - (* RemoteGameState *)
    simpl. unfold syncFromRemote.
    destruct (rs_scores st), (rs_currentEnd st) as [c |], (rs_hammer st);
      try destruct (Z.eqb c 0); apply Hsame; reflexivity.
Qed.

Lemma phaseAfterTurn_cases (n : Z) :
  ((16 <= n)%Z /\ phaseAfterTurn n = end_over)
  \/ ((n < 16)%Z /\ phaseAfterTurn n = cooldown).
Proof.
  unfold phaseAfterTurn. destruct (n >=? 16)%Z eqn:E.
  - left. split; [apply Z.geb_le; exact E | reflexivity].
  - right. split; [| reflexivity].
    rewrite Z.geb_leb in E. apply Z.leb_gt in E. exact E.
Qed.

Lemma startEnd_withinEnd (zones : list Zone) (now : R) (g0 : GameManager) :
  withinEnd (startEnd zones now g0).
Proof. unfold withinEnd, startEnd, totalThrown; simpl. lia. Qed.

(** One event keeps the end well-formed, provided a throw of the peer is
    handled with fewer than 16 stones thrown. *)
Lemma handle_withinEnd (e : Event) (g : GameManager) :
  withinEnd g ->
  (isRemoteThrow e = true -> (totalThrown g < 16)%Z) ->
  withinEnd (handle e g).
Proof.
  intros Hinv Hremote.
  destruct (handle_effect e g) as [Ht Hs].
  unfold withinEnd in *.
  destruct Hs as [[Hthrow [Hwho Hs]] | [Hthrow Hs]]; rewrite Hthrow in Ht.
  - assert (Hlt : (totalThrown g < 16)%Z).
    { destruct Hwho as [Hr | [Hp | Hp]]; [exact (Hremote Hr) | |];
        rewrite Hp in Hinv; exact Hinv. }
    destruct Hs as [Hs | Hs].
    + rewrite Hs. lia.
    + rewrite Hs.
      destruct (phaseAfterTurn_cases (totalThrown (handle e g)))
        as [[Hn ->] | [Hn ->]]; lia.
  - assert (Ht' : totalThrown (handle e g) = totalThrown g) by lia.
    rewrite Ht'.
    destruct Hs as [Hs | [[Hp Hs] | [[Hp Hs] | [[Hp Hs] | [Hp Hs]]]]];
      rewrite Hs; try (rewrite Hp in Hinv); try exact Hinv.
    destruct (phaseAfterTurn_cases (totalThrown g)) as [[Hn ->] | [Hn ->]]; lia.
Qed.

Lemma run_withinEnd (evs : list Event) (g : GameManager) :
  withinEnd g -> remoteThrowsInTurn evs g -> withinEnd (run evs g).
Proof.
  revert g. induction evs as [| e rest IH]; intros g Hinv Hr; simpl.
  - exact Hinv.
  - destruct Hr as [Hr1 Hr2]. apply IH; [| exact Hr2].
    apply handle_withinEnd; assumption.
Qed.

Lemma no_local_throw_once_over (e : Event) (g : GameManager) :
  state g = end_over -> isRemoteThrow e = false -> isThrow e g = false.
Proof.
  intros Hs Hr.
  destruct e as [now | | | | | | | now action |]; simpl in *;
    try rewrite Hs; try reflexivity.
  destruct action; try reflexivity; discriminate Hr.
Qed.

(** C8 (amended): every throw, a timed-out turn included, adds exactly 1 to
    [stonesThrown[0] + stonesThrown[1]] and no other event changes it;
    [nextTurn] enters [end_over] exactly when the sum has reached 16; and
    along every run of an end in which the peer's [launch] and [timeout]
    messages are handled with fewer than 16 stones thrown, the sum is at
    most 16, the phase is [end_over] only with the sum at 16, a sum of 16
    leaves only the last stone's [waiting] phase and [end_over], and no
    throw of the local player happens once the end is over. *)
Theorem throws_counted_and_end_over_at_16 :
  (forall e g,
     totalThrown (handle e g)
     = (totalThrown g + (if isThrow e g then 1 else 0))%Z)
  /\ (forall now g,
        state (nextTurn now g) = end_over <-> (16 <= totalThrown g)%Z)
  /\ (forall zones now g0 evs,
        remoteThrowsInTurn evs (startEnd zones now g0) ->
        let g := run evs (startEnd zones now g0) in
        (totalThrown g <= 16)%Z
        /\ (state g = end_over -> totalThrown g = 16%Z)
        /\ (totalThrown g = 16%Z -> state g = waiting \/ state g = end_over)
        /\ (state g = end_over ->
            forall e, isRemoteThrow e = false -> isThrow e g = false)).
Proof.
  split; [intros e g; exact (proj1 (handle_effect e g)) |].
  split.
  - intros now g. rewrite (proj2 (nextTurn_effect now g)).
    fold (phaseAfterTurn (totalThrown g)).
    destruct (phaseAfterTurn_cases (totalThrown g)) as [[Hn ->] | [Hn ->]];
      split; intros H; try lia; try reflexivity; discriminate H.
  - intros zones now g0 evs Hr g.
    pose proof (run_withinEnd evs _ (startEnd_withinEnd zones now g0) Hr)
      as Hinv.
    fold g in Hinv. unfold withinEnd in Hinv.
    split; [destruct (state g); try lia; contradiction |].
    split; [intros Hs; rewrite Hs in Hinv; exact Hinv |].
    split.
    + intros H16. destruct (state g); auto; try lia; contradiction.
    + intros Hs e He. apply no_local_throw_once_over; assumption.
Qed.

Lemma run_app (evs evs' : list Event) (g : GameManager) :
  run (evs ++ evs') g = run evs' (run evs g).
Proof. unfold run. apply fold_left_app. Qed.

Lemma geb_false (a b : Z) : (a < b)%Z -> (a >=? b)%Z = false.
Proof. intros H. rewrite Z.geb_leb. apply Z.leb_gt. exact H. Qed.

(** The peer's [timeout] message, received by the yellow player. *)
Lemma remote_timeout_effect (t : R) (k : Z) (g : GameManager) :
  myTeam g = Some Yellow -> currentTeam g = Red ->
  stonesThrown g = (k, k) -> (0 <= k < 8)%Z ->
  let g' := handle (Remote t (ActTimeout Red)) g in
  myTeam g' = Some Yellow /\ currentTeam g' = Yellow
  /\ stonesThrown g' = (k + 1, k)%Z /\ state g' = cooldown
  /\ isMyTurn g' = true /\ cooldownStart g' = t
  /\ cooldownDuration g' = 2000.
Proof.
  intros Hm Hc Hst Hk.
  destruct g; simpl in Hm, Hc, Hst; subst.
  cbn [handle handleRemoteAction]. unfold nextTurn, totalThrown. cbn.
  rewrite (geb_false (k + 1 + k) 16) by lia.
  rewrite (proj2 (Z.ltb_lt k 8)) by lia.
  cbn. repeat split; reflexivity.
Qed.

(** The frame that ends the cooldown. *)
Lemma cooldown_frame_effect (t : R) (a b : Z) (g : GameManager) :
  myTeam g = Some Yellow -> currentTeam g = Yellow ->
  stonesThrown g = (a, b) -> state g = cooldown ->
  isMyTurn g = true -> cooldownStart g = t -> cooldownDuration g = 2000 ->
  let g' := handle (Frame (t + 2000)) g in
  myTeam g' = Some Yellow /\ currentTeam g' = Yellow
  /\ stonesThrown g' = (a, b) /\ state g' = aiming
  /\ isMyTurn g' = true /\ aimStartTime g' = t + 2000.
Proof.
  intros Hm Hc Hst Hs Ht Hcs Hcd.
  destruct g; simpl in Hm, Hc, Hst, Hs, Ht, Hcs, Hcd; subst.
  cbn [handle]. unfold update, updateAfterTimer, cooldownTimer. cbn.
  rewrite (proj2 (Rgeb_true_iff _ _)) by lra.
  cbn. repeat split; reflexivity.
Qed.

Lemma nextTurn_myTeam (now : R) (g : GameManager) :
  myTeam (nextTurn now g) = myTeam g.
Proof.
  unfold nextTurn. destruct (totalThrown g >=? 16)%Z.
  - unfold endEnd.
    destruct (result_team (calculateScore (stones (physics g)))); reflexivity.
  - destruct (at_team (stonesThrown g) _ <? 8)%Z; reflexivity.
Qed.

Lemma nextTurn_currentTeam (now : R) (g : GameManager) :
  (totalThrown g < 16)%Z ->
  (at_team (stonesThrown g) (otherTeam (currentTeam g)) < 8)%Z ->
  currentTeam (nextTurn now g) = otherTeam (currentTeam g).
Proof.
  intros Ht Ho. unfold nextTurn. rewrite (geb_false _ _ Ht).
  change (match currentTeam g with Red => Yellow | Yellow => Red end)
    with (otherTeam (currentTeam g)).
  rewrite (proj2 (Z.ltb_lt _ _) Ho). reflexivity.
Qed.

(** [update()] when the aim timer of the local player has run out. *)
Lemma update_aim_timeout (now : R) (g : GameManager) :
  state g = aiming -> isMyTurn g = true ->
  now - aimStartTime g >= AIM_TIME_LIMIT ->
  handle (Frame now) g
  = nextTurn now
      (set_power 0 (set_aimTarget None (set_isDragging false
         (incThrown (currentTeam g) g)))).
Proof.
  intros Hs Ht Hl. cbn [handle]. unfold update. rewrite Hs, Ht. cbn.
  rewrite (proj2 (Rgeb_true_iff _ _) Hl). reflexivity.
Qed.

(** The frame in which the local aim timer expires. *)
Lemma aim_timeout_frame_effect (t : R) (k : Z) (g : GameManager) :
  myTeam g = Some Yellow -> currentTeam g = Yellow ->
  stonesThrown g = (k + 1, k)%Z -> (0 <= k < 8)%Z -> state g = aiming ->
  isMyTurn g = true -> aimStartTime g = t + 2000 ->
  let g' := handle (Frame (t + 17000)) g in
  myTeam g' = Some Yellow /\ ((k + 1 < 8)%Z -> currentTeam g' = Red)
  /\ stonesThrown g' = (k + 1, k + 1)%Z
  /\ state g' = phaseAfterTurn (2 * (k + 1)).
Proof.
  intros Hm Hc Hst Hk Hs Ht Ha. cbv zeta.
  rewrite update_aim_timeout;
    [| exact Hs | exact Ht | rewrite Ha; unfold AIM_TIME_LIMIT; lra].
  set (g1 := set_power 0 (set_aimTarget None (set_isDragging false
               (incThrown (currentTeam g) g)))).
  assert (H1 : stonesThrown g1 = (k + 1, k + 1)%Z).
  { unfold g1. cbn. rewrite Hc, Hst. reflexivity. }
  assert (H2 : totalThrown g1 = (2 * (k + 1))%Z)
    by (unfold totalThrown; rewrite H1; cbn [fst snd]; lia).
  assert (H3 : currentTeam g1 = Yellow) by exact Hc.
  destruct (nextTurn_effect (t + 17000) g1) as [Hn1 Hn2].
  rewrite nextTurn_myTeam.
  split; [exact Hm |]. split; [| split].
  - intros Hlt. rewrite nextTurn_currentTeam.
    + rewrite H3. reflexivity.
    + lia.
    + rewrite H3, H1. cbn [otherTeam at_team fst snd]. lia.
  - rewrite Hn1. exact H1.
  - rewrite Hn2, H2. reflexivity.
Qed.

(** The effect of one [timeoutRound] on the yellow peer. *)
Lemma timeoutRound_effect (t : R) (k : Z) (g : GameManager) :
  myTeam g = Some Yellow -> currentTeam g = Red ->
  stonesThrown g = (k, k) -> (0 <= k < 8)%Z ->
  let g' := run (timeoutRound t) g in
  myTeam g' = Some Yellow /\ ((k + 1 < 8)%Z -> currentTeam g' = Red)
  /\ stonesThrown g' = (k + 1, k + 1)%Z
  /\ state g' = phaseAfterTurn (2 * (k + 1)).
Proof.
  intros Hm Hc Hst Hk. unfold timeoutRound, run; simpl fold_left.
  destruct (remote_timeout_effect t k g Hm Hc Hst Hk)
    as [A1 [A2 [A3 [A4 [A5 [A6 A7]]]]]].
  destruct (cooldown_frame_effect t _ _ _ A1 A2 A3 A4 A5 A6 A7)
    as [B1 [B2 [B3 [B4 [B5 B6]]]]].
  exact (aim_timeout_frame_effect t k _ B1 B2 B3 Hk B4 B5 B6).
Qed.

Lemma timeoutRounds_effect (ts : list R) (k : Z) (g : GameManager) :
  myTeam g = Some Yellow -> currentTeam g = Red ->
  stonesThrown g = (k, k) -> (0 <= k)%Z ->
  (k + Z.of_nat (List.length ts) <= 8)%Z ->
  let n := (k + Z.of_nat (List.length ts))%Z in
  let g' := run (flat_map timeoutRound ts) g in
  myTeam g' = Some Yellow /\ ((n < 8)%Z -> currentTeam g' = Red)
  /\ stonesThrown g' = (n, n)
  /\ (ts <> [] -> state g' = phaseAfterTurn (2 * n)).
Proof.
  revert k g. induction ts as [| t rest IH]; intros k g Hm Hc Hst Hk Hlen.
  - simpl. rewrite Z.add_0_r.
    split; [exact Hm |]. split; [intros _; exact Hc |].
    split; [exact Hst | intros H; contradiction].
  - change (flat_map timeoutRound (t :: rest))
      with (timeoutRound t ++ flat_map timeoutRound rest).
    cbv zeta. rewrite run_app.
    assert (Hlen' : (k + 1 + Z.of_nat (List.length rest) <= 8)%Z)
      by (simpl List.length in Hlen; lia).
    destruct (timeoutRound_effect t k g Hm Hc Hst) as [A1 [A2 [A3 A4]]];
      [lia |].
    destruct rest as [| t' rest'].
    + change (flat_map timeoutRound []) with (@nil Event).
      change (run [] (run (timeoutRound t) g)) with (run (timeoutRound t) g).
      replace (k + Z.of_nat (List.length [t]))%Z with (k + 1)%Z
        by (simpl List.length; lia).
      split; [exact A1 |]. split; [exact A2 |].
      split; [exact A3 | intros _; exact A4].
    + assert (Hlt : (k + 1 < 8)%Z) by (simpl List.length in Hlen'; lia).
      destruct (IH (k + 1)%Z _ A1 (A2 Hlt) A3) as [B1 [B2 [B3 B4]]];
        [lia | exact Hlen' |].
      replace (k + Z.of_nat (List.length (t :: t' :: rest')))%Z
        with (k + 1 + Z.of_nat (List.length (t' :: rest')))%Z
        by (simpl List.length; lia).
      split; [exact B1 |]. split; [exact B2 |].
      split; [exact B3 | intros _; apply B4; discriminate].
Qed.

Lemma sixteenTimeouts_effect :
  state (run sixteenTimeouts firstEndStart) = end_over
  /\ stonesThrown (run sixteenTimeouts firstEndStart) = (8, 8)%Z.
Proof.
  assert (Hlen : (0 + Z.of_nat (List.length
            [0; 40000; 80000; 120000; 160000; 200000; 240000; 280000])
          <= 8)%Z) by (simpl List.length; lia).
  destruct (timeoutRounds_effect
              [0; 40000; 80000; 120000; 160000; 200000; 240000; 280000]
              0 firstEndStart eq_refl eq_refl eq_refl (Z.le_refl 0) Hlen)
    as [_ [_ [H3 H4]]].
  split; [apply H4; discriminate | exact H3].
Qed.

Lemma run_snoc (evs : list Event) (e : Event) (g : GameManager) :
  run (evs ++ [e]) g = handle e (run evs g).
Proof. rewrite run_app. reflexivity. Qed.

Lemma earlyLaunch_effect (g : GameManager) :
  totalThrown (handle earlyLaunch g) = (totalThrown g + 1)%Z
  /\ state (handle earlyLaunch g) = waiting.
Proof.
  split; [exact (proj1 (handle_effect earlyLaunch g)) | reflexivity].
Qed.

(** C8, as stated, fails: the yellow peer reaches [end_over] after the 16
    throws of the end (all of them timed out); the [launch] message of a
    peer that has already started the next end is then handled all the
    same, and brings the sum to 17 in phase [waiting]. *)
Lemma throw_after_end_over :
  state (run sixteenTimeouts firstEndStart) = end_over
  /\ totalThrown (run sixteenTimeouts firstEndStart) = 16%Z
  /\ totalThrown (run (sixteenTimeouts ++ [earlyLaunch]) firstEndStart) = 17%Z
  /\ ~ (totalThrown (run (sixteenTimeouts ++ [earlyLaunch]) firstEndStart)
        <= 16)%Z
  /\ state (run (sixteenTimeouts ++ [earlyLaunch]) firstEndStart) = waiting.
Proof.
  destruct sixteenTimeouts_effect as [Hs Ht].
  rewrite run_snoc.
  generalize dependent (run sixteenTimeouts firstEndStart).
  intros g Hs Ht.
  destruct (earlyLaunch_effect g) as [H1 H2].
  assert (H16 : totalThrown g = 16%Z)
    by (unfold totalThrown; rewrite Ht; reflexivity).
  rewrite H1, H16.
  split; [exact Hs |]. split; [reflexivity |]. split; [reflexivity |].
  split; [lia | exact H2].
Qed.

Lemma throws_counted_and_end_over_at_16_witness :
  (totalThrown (run [Remote 0 (ActTimeout Red)] (startEnd [] 0 yellowPeer))
   <= 16)%Z.
Proof.
  apply (proj2 (proj2 throws_counted_and_end_over_at_16)
           [] 0 yellowPeer [Remote 0 (ActTimeout Red)]).
  cbn [remoteThrowsInTurn isRemoteThrow].
  split; [intros _; reflexivity | exact I].
Defined.

(** * Further properties *)

(** ** Swept zones *)




Lemma find_snoc_hit {A} (f : A -> bool) (l : list A) (a : A) :
  f a = true -> find f (l ++ [a]) <> None.
Proof.
  intros Ha. induction l as [| b t IH]; simpl.
  - rewrite Ha. discriminate.
  - destruct (f b); [discriminate | exact IH].
Qed.

(** X2: sweeping the same spot twice adds at most one zone: a second
    [addSweepZone] at the same point changes nothing; and [addSweepZone]
    never touches the stones or the rough zones. *)
Theorem addSweepZone_same_spot_once (px py : R) (p : PhysicsEngine) :
  addSweepZone px py (addSweepZone px py p) = addSweepZone px py p
  /\ stones (addSweepZone px py p) = stones p
  /\ roughZones (addSweepZone px py p) = roughZones p.
Proof.
  split.
  - set (q := addSweepZone px py p).
    assert (Hhit : find (fun z =>
                      Rltb (sqrt ((zone_x z - px) * (zone_x z - px)
                                  + (zone_y z - py) * (zone_y z - py)))
                           (SWEEP_RADIUS * (5 / 10)))
                     (sweepZones q) <> None).
    { unfold q, addSweepZone.
      destruct (find _ (sweepZones p)) eqn:Ef; simpl.
      - rewrite Ef. discriminate.
      - apply find_snoc_hit. simpl. apply Rltb_true_iff.
        replace ((px - px) * (px - px) + (py - py) * (py - py)) with 0 by ring.
        rewrite sqrt_0. unfold SWEEP_RADIUS. lra. }
    unfold addSweepZone at 1.
    destruct (find _ (sweepZones q)); [reflexivity | contradiction].
  - unfold addSweepZone. destruct (find _ _); split; reflexivity.
Qed.

(** ** The simulation tick *)

Lemma slotKept_refl (s : Stone) : slotKept s s.
Proof. repeat split. Qed.

Lemma slotKept_trans (a b c : Stone) :
  slotKept a b -> slotKept b c -> slotKept a c.
Proof.
  intros [T1 [R1 [A1 I1]]] [T2 [R2 [A2 I2]]].
  repeat split; try congruence.
  intros Ha. rewrite (I2 (eq_trans A1 Ha)). exact (I1 Ha).
Qed.

Lemma Forall2_slotKept_refl (l : list Stone) : Forall2 slotKept l l.
Proof. induction l; constructor; [apply slotKept_refl | assumption]. Qed.

Lemma Forall2_slotKept_trans (l1 l2 l3 : list Stone) :
  Forall2 slotKept l1 l2 -> Forall2 slotKept l2 l3 -> Forall2 slotKept l1 l3.
Proof.
  intros H. revert l3. induction H as [| a b l1 l2 Hab H12 IH]; intros l3 H23.
  - inversion H23; constructor.
  - inversion H23 as [| ? c ? l3' Hbc H23']; subst.
    constructor; [eapply slotKept_trans; eassumption | apply IH; exact H23'].
Qed.

Lemma Forall2_map_right {A} (R : A -> A -> Prop) (f : A -> A) (l : list A) :
  (forall a, R a (f a)) -> Forall2 R l (map f l).
Proof. intros H. induction l; simpl; constructor; auto. Qed.

Lemma resolveCollision_slotKept (a b : Stone) :
  slotKept a (fst (resolveCollision a b))
  /\ slotKept b (snd (resolveCollision a b)).
Proof.
  unfold resolveCollision.
  destruct (negb (active a) || negb (active b)) eqn:Eg;
    [split; apply slotKept_refl |].
  apply orb_false_iff in Eg. destruct Eg as [Ea Eb].
  apply negb_false_iff in Ea, Eb.
  destruct (Rltb _ _ && Rgtb _ _); [| split; apply slotKept_refl].
  destruct (Rleb _ 0); [split; apply slotKept_refl |].
  simpl. split; repeat split; intros Hx; congruence.
Qed.

Lemma collideWith_slotKept (rest : list Stone) (a : Stone) :
  slotKept a (fst (collideWith a rest))
  /\ Forall2 slotKept rest (snd (collideWith a rest)).
Proof.
  revert a. induction rest as [| b rest' IH]; intros a; simpl.
  - split; [apply slotKept_refl | constructor].
  - destruct (negb (active b)).
    + destruct (IH a) as [Ha Hr].
      destruct (collideWith a rest') as [a' r]. simpl in *.
      split; [exact Ha | constructor; [apply slotKept_refl | exact Hr]].
    + destruct (resolveCollision_slotKept a b) as [Ha1 Hb1].
      destruct (resolveCollision a b) as [a1 b1]. simpl in Ha1, Hb1.
      destruct (IH a1) as [Ha Hr].
      destruct (collideWith a1 rest') as [a' r]. simpl in *.
      split; [eapply slotKept_trans; eassumption |].
      constructor; [exact Hb1 | exact Hr].
Qed.

Lemma collideAll_slotKept (fuel : nat) (l : list Stone) :
  Forall2 slotKept l (collideAll fuel l).
Proof.
  revert l. induction fuel as [| fuel IH]; intros l; simpl.
  - destruct l; apply Forall2_slotKept_refl.
  - destruct l as [| a rest]; [constructor |].
    destruct (negb (active a)).
    + constructor; [apply slotKept_refl | apply IH].
    + destruct (collideWith_slotKept rest a) as [Ha Hr].
      destruct (collideWith a rest) as [a' rest']. simpl in Ha, Hr.
      constructor; [exact Ha |].
      eapply Forall2_slotKept_trans; [exact Hr | apply IH].
Qed.

Lemma Stone_update_slotKept (sw ro : list Zone) (e : R) (s : Stone) :
  slotKept s (Stone_update sw ro e s).
Proof.
  unfold Stone_update. destruct (active s) eqn:Ha; simpl;
    [| apply slotKept_refl].
  destruct (Rltb _ MIN_VELOCITY); simpl; repeat split; auto;
    intros H; congruence.
Qed.

Lemma markOutOfBounds_effect (bounds : Bounds) (s : Stone) :
  team (markOutOfBounds bounds s) = team s
  /\ radius (markOutOfBounds bounds s) = radius s
  /\ (active s = false -> markOutOfBounds bounds s = s)
  /\ (active (markOutOfBounds bounds s) = true ->
      active s = true /\ markOutOfBounds bounds s = s /\ inBounds bounds s)
  /\ (active s = true -> active (markOutOfBounds bounds s) = false ->
      vx (markOutOfBounds bounds s) = 0 /\ vy (markOutOfBounds bounds s) = 0).
Proof.
  unfold markOutOfBounds, inBounds.
  destruct (active s) eqn:Ha; simpl negb; cbv iota.
  2:{ repeat split; auto; intros; congruence. }
  destruct (Rltb (x s - radius s) (left bounds - 20)
            || Rgtb (x s + radius s) (right bounds + 20)) eqn:Ex.
  - simpl.
    destruct (Rltb (y s - radius s) (top bounds - 40)
              || Rgtb (y s + radius s) (bottom bounds + 40)); simpl;
      (split; [reflexivity |]); (split; [reflexivity |]);
      (split; [intros Hf; discriminate Hf |]);
      (split; [intros Hf; discriminate Hf | intros _ _; split; reflexivity]).
  - destruct (Rltb (y s - radius s) (top bounds - 40)
              || Rgtb (y s + radius s) (bottom bounds + 40)) eqn:Ey.
    + simpl.
      (split; [reflexivity |]); (split; [reflexivity |]);
      (split; [intros Hf; discriminate Hf |]);
      (split; [intros Hf; discriminate Hf | intros _ _; split; reflexivity]).
    + apply orb_false_iff in Ex, Ey. destruct Ex as [Ex1 Ex2], Ey as [Ey1 Ey2].
      apply Rltb_false_iff in Ex1, Ey1. apply Rgtb_false_iff in Ex2, Ey2.
      (split; [reflexivity |]); (split; [reflexivity |]);
      (split; [intros Hf; congruence |]).
      split.
      * intros _. repeat split; auto; lra.
      * intros _ Hf. congruence.
Qed.

Lemma Physics_update_tickKeeps
    (bounds : Bounds) (currentEnd : Z) (p : PhysicsEngine) :
  Forall2 tickKeeps (stones p) (stones (Physics_update bounds currentEnd p)).
Proof.
  unfold Physics_update; simpl.
  set (e := IZR (if Z.eqb currentEnd 0 then 1%Z else currentEnd)).
  set (moved := map (Stone_update (sweepZones p) (roughZones p) e) (stones p)).
  assert (H1 : Forall2 slotKept (stones p) moved)
    by (apply Forall2_map_right; intros s; apply Stone_update_slotKept).
  pose proof (collideAll_slotKept (List.length moved) moved) as H2.
  pose proof (Forall2_slotKept_trans _ _ _ H1 H2) as H12.
  clear H1 H2. revert H12.
  generalize (collideAll (List.length moved) moved) as l2.
  generalize (stones p) as l1. clear.
  intros l1 l2 H. induction H as [| s s2 l1 l2 Hs H IH]; simpl; constructor;
    [| exact IH].
  destruct Hs as [T [R0 [A I]]].
  destruct (markOutOfBounds_effect bounds s2) as [T' [R' [I' [A' Z']]]].
  unfold tickKeeps. repeat split; try congruence.
  - intros Ha. rewrite I' by congruence. apply I; exact Ha.
  - intros Ha. destruct (A' Ha) as [Ha2 _]. congruence.
  - apply Z'; congruence.
  - apply Z'; congruence.
Qed.

(** X3: a simulation tick neither creates, deletes nor reorders stones and
    keeps the team and radius of each; a retired stone is left exactly as
    it is (it is neither moved nor brought back into play), and a stone
    the tick retires ends with zero velocity.  The zones are untouched. *)
Theorem Physics_update_keeps_slots
    (bounds : Bounds) (currentEnd : Z) (p : PhysicsEngine) :
  Forall2 tickKeeps (stones p) (stones (Physics_update bounds currentEnd p))
  /\ sweepZones (Physics_update bounds currentEnd p) = sweepZones p
  /\ roughZones (Physics_update bounds currentEnd p) = roughZones p.
Proof.
  split; [apply Physics_update_tickKeeps | split; reflexivity].
Qed.

(** X4: after a simulation tick every stone still in play lies inside the
    sheet bounds (with the slack of 20 at the sides and 40 at the ends). *)
Theorem Physics_update_active_stones_in_bounds
    (bounds : Bounds) (currentEnd : Z) (p : PhysicsEngine) :
  Forall (fun s => active s = true -> inBounds bounds s)
    (stones (Physics_update bounds currentEnd p)).
Proof.
  unfold Physics_update; simpl. apply Forall_forall. intros s' Hin.
  apply in_map_iff in Hin. destruct Hin as [s [<- _]].
  intros Ha.
  destruct (markOutOfBounds_effect bounds s) as [_ [_ [_ [A' _]]]].
  destruct (A' Ha) as [_ [Heq Hb]]. rewrite Heq. exact Hb.
Qed.

(** ** Collisions in the whole collection *)





(** ** A settled sheet *)

Lemma Stone_update_at_rest (sw ro : list Zone) (e : R) (s : Stone) :
  vx s = 0 -> vy s = 0 -> Stone_update sw ro e s = s.
Proof.
  intros Hx Hy. unfold Stone_update.
  destruct (active s) eqn:Ha; simpl; [| reflexivity].
  destruct s as [t px py wx wy r a]; simpl in *; subst.
  set (f := zoneLoop sw _ _ _ _ _).
  replace (0 * f * (0 * f) + 0 * f * (0 * f)) with 0 by ring.
  rewrite sqrt_0. unfold MIN_VELOCITY. decide_cmp.
  f_equal; ring.
Qed.

Lemma resolveCollision_at_rest (a b : Stone) :
  vx a = 0 -> vy a = 0 -> vx b = 0 -> vy b = 0 ->
  resolveCollision a b = (a, b).
Proof.
  intros Hax Hay Hbx Hby. unfold resolveCollision.
  destruct (negb (active a) || negb (active b)); [reflexivity |].
  destruct (Rltb _ _ && Rgtb _ _); [| reflexivity].
  rewrite Hax, Hay, Hbx, Hby.
  match goal with
  | |- (if Rleb ?v 0 then _ else _) = _ =>
      replace v with 0 by (unfold Rdiv; ring)
  end.
  rewrite (proj2 (Rleb_true_iff 0 0)) by lra. reflexivity.
Qed.

Lemma collideWith_at_rest (rest : list Stone) (a : Stone) :
  vx a = 0 -> vy a = 0 ->
  Forall (fun s => vx s = 0 /\ vy s = 0) rest ->
  collideWith a rest = (a, rest).
Proof.
  intros Hx Hy H. induction H as [| b rest' [Hbx Hby] _ IH]; simpl.
  - reflexivity.
  - destruct (negb (active b)).
    + rewrite IH. reflexivity.
    + rewrite (resolveCollision_at_rest a b Hx Hy Hbx Hby), IH. reflexivity.
Qed.

Lemma collideAll_at_rest (fuel : nat) (l : list Stone) :
  Forall (fun s => vx s = 0 /\ vy s = 0) l -> collideAll fuel l = l.
Proof.
  revert l. induction fuel as [| fuel IH]; intros l H; simpl.
  - destruct l; reflexivity.
  - destruct H as [| a rest [Hx Hy] Hrest]; [reflexivity |].
    destruct (negb (active a)).
    + rewrite (IH rest Hrest). reflexivity.
    + rewrite (collideWith_at_rest rest a Hx Hy Hrest).
      rewrite (IH rest Hrest). reflexivity.
Qed.

Lemma markOutOfBounds_inside (bounds : Bounds) (s : Stone) :
  (active s = true -> inBounds bounds s) -> markOutOfBounds bounds s = s.
Proof.
  intros H. unfold markOutOfBounds.
  destruct (active s) eqn:Ha; simpl; [| reflexivity].
  destruct (H eq_refl) as [B1 [B2 [B3 B4]]].
  rewrite (proj2 (Rltb_false_iff _ _) B1), (proj2 (Rgtb_false_iff _ _) B2).
  simpl.
  rewrite (proj2 (Rltb_false_iff _ _) B3), (proj2 (Rgtb_false_iff _ _) B4).
  reflexivity.
Qed.

(** X6: a settled sheet stays settled: when no stone has a velocity and
    every stone in play is inside the bounds, a simulation tick changes
    nothing at all (overlapping stones at rest are not pushed apart). *)
Theorem Physics_update_settled_fixpoint
    (bounds : Bounds) (currentEnd : Z) (p : PhysicsEngine) :
  Forall (settled bounds) (stones p) ->
  Physics_update bounds currentEnd p = p.
Proof.
  intros H. unfold Physics_update.
  assert (Hrest : Forall (fun s => vx s = 0 /\ vy s = 0) (stones p)).
  { eapply Forall_impl; [| exact H]. intros s [Hx [Hy _]]. split; assumption. }
  assert (Hmoved : map (Stone_update (sweepZones p) (roughZones p)
                          (IZR (if Z.eqb currentEnd 0 then 1%Z else currentEnd)))
                     (stones p) = stones p).
  { rewrite <- (map_id (stones p)) at 2. apply map_ext_in.
    intros s Hs. rewrite Forall_forall in Hrest.
    destruct (Hrest s Hs) as [Hx Hy]. apply Stone_update_at_rest; assumption. }
  cbv zeta. rewrite Hmoved. rewrite (collideAll_at_rest _ _ Hrest).
  assert (Hmark : map (markOutOfBounds bounds) (stones p) = stones p).
  { rewrite <- (map_id (stones p)) at 2. apply map_ext_in.
    intros s Hs. rewrite Forall_forall in H.
    destruct (H s Hs) as [_ [_ Hb]]. apply markOutOfBounds_inside; exact Hb. }
  rewrite Hmark. destruct p; reflexivity.
Qed.

Lemma Physics_update_settled_fixpoint_witness :
  Physics_update sheetBounds 1 (mkPhysics [thrownStone] [] [])
  = mkPhysics [thrownStone] [] [].
Proof.
  apply (Physics_update_settled_fixpoint sheetBounds 1
           (mkPhysics [thrownStone] [] [])).
  constructor; [| constructor].
  split; [reflexivity | split; [reflexivity |]].
  intros _. unfold inBounds, thrownStone, sheetBounds, SHEET, STONE_RADIUS.
  simpl. lra.
Defined.

(** ** Friction only slows down *)

Lemma frictionRule_range (sw ro : list Zone) (e px py r : R) :
  1 <= e <= 985 ->
  0 <= frictionRule sw ro e px py r <= SWEPT_FRICTION.
Proof.
  intros He. unfold frictionRule.
  destruct (inSomeZone sw px py r); [unfold SWEPT_FRICTION; lra |].
  destruct (inSomeZone ro px py r);
    unfold SWEPT_FRICTION, ROUGH_FRICTION, ICE_FRICTION, FRICTION_DEGRADATION;
    lra.
Qed.

Lemma tickSpeed_le (f v : R) :
  0 <= f <= SWEPT_FRICTION -> 0 <= v ->
  0 <= tickSpeed f v <= SWEPT_FRICTION * v
  /\ (tickSpeed f v = 0 \/ MIN_VELOCITY <= tickSpeed f v).
Proof.
  intros Hf Hv. unfold tickSpeed, SWEPT_FRICTION in *.
  destruct (Rltb (f * v) MIN_VELOCITY) eqn:E.
  - split; [nra | left; reflexivity].
  - apply Rltb_false_iff in E. split; [nra | right; exact E].
Qed.

(** X7: a kinematics tick never makes a stone faster (for end numbers from
    1 to 985, where every friction factor lies between 0 and 1). *)
Theorem Stone_update_never_speeds_up
    (sw ro : list Zone) (e : R) (s : Stone) :
  1 <= e <= 985 ->
  speed (Stone_update sw ro e s) <= speed s.
Proof.
  intros He. destruct (active s) eqn:Ha.
  - pose proof (frictionRule_range sw ro e (x s + vx s) (y s + vy s)
                  (radius s) He) as Hf.
    rewrite speed_after_tick; [| exact Ha | lra].
    destruct (tickSpeed_le _ (speed s) Hf (speed_nonneg s)) as [[_ H] _].
    pose proof (speed_nonneg s). unfold SWEPT_FRICTION in H. lra.
  - unfold Stone_update. rewrite Ha. simpl. lra.
Qed.

Lemma Stone_update_never_speeds_up_witness :
  speed (Stone_update [] [patchAtSlowStone] 1 slowStone) <= speed slowStone.
Proof.
  apply (Stone_update_never_speeds_up [] [patchAtSlowStone] 1 slowStone).
  lra.
Defined.

Lemma ticks_succ (n : nat) (sw ro : list Zone) (e : R) (s : Stone) :
  ticks (S n) sw ro e s = Stone_update sw ro e (ticks n sw ro e s).
Proof. reflexivity. Qed.

Lemma ticks_speed_bound (n : nat) (sw ro : list Zone) (e : R) (s : Stone) :
  1 <= e <= 985 -> active s = true ->
  speed (ticks n sw ro e s) <= SWEPT_FRICTION ^ n * speed s
  /\ ((1 <= n)%nat ->
      speed (ticks n sw ro e s) = 0
      \/ MIN_VELOCITY <= speed (ticks n sw ro e s)).
Proof.
  intros He Ha. induction n as [| n [IH _]].
  - split; [unfold ticks; simpl; lra | lia].
  - rewrite ticks_succ.
    set (sn := ticks n sw ro e s) in *.
    pose proof (frictionRule_range sw ro e (x sn + vx sn) (y sn + vy sn)
                  (radius sn) He) as Hf.
    rewrite speed_after_tick;
      [| unfold sn; rewrite ticks_active; exact Ha | lra].
    destruct (tickSpeed_le _ (speed sn) Hf (speed_nonneg sn)) as [[_ H] H0].
    split; [| intros _; exact H0].
    simpl pow. unfold SWEPT_FRICTION in *. nra.
Qed.

(** X8: every stone in play comes to rest: under any fixed swept and rough
    zones there is a number of ticks after which its speed is exactly zero
    for good (for end numbers from 1 to 985). *)
Theorem every_stone_eventually_stops
    (sw ro : list Zone) (e : R) (s : Stone) :
  1 <= e <= 985 -> active s = true ->
  exists N : nat, forall n : nat, (N <= n)%nat ->
    speed (ticks n sw ro e s) = 0
    /\ isMoving (ticks n sw ro e s) = false.
Proof.
  intros He Ha.
  pose proof (speed_nonneg s) as Hv.
  assert (Hy : 0 < MIN_VELOCITY / (speed s + 1))
    by (apply Rdiv_lt_0_compat; unfold MIN_VELOCITY; lra).
  destruct (pow_lt_1_zero SWEPT_FRICTION) with (y := MIN_VELOCITY / (speed s + 1))
    as [N HN]; [unfold SWEPT_FRICTION; rewrite Rabs_right; lra | exact Hy |].
  exists (S N). intros n Hn.
  destruct (ticks_speed_bound n sw ro e s He Ha) as [Hb Hz].
  specialize (HN n ltac:(lia)).
  assert (Hp : 0 <= SWEPT_FRICTION ^ n)
    by (apply pow_le; unfold SWEPT_FRICTION; lra).
  rewrite Rabs_right in HN by lra.
  assert (Hsmall : speed (ticks n sw ro e s) < MIN_VELOCITY).
  { assert (Hq : MIN_VELOCITY / (speed s + 1) * (speed s + 1) = MIN_VELOCITY)
      by (field; lra).
    nra. }
  assert (H0 : speed (ticks n sw ro e s) = 0)
    by (destruct (Hz ltac:(lia)) as [H0 | H0]; [exact H0 | lra]).
  split; [exact H0 |].
  unfold isMoving. apply Rgtb_false_iff. rewrite H0. unfold MIN_VELOCITY. lra.
Qed.

Lemma every_stone_eventually_stops_witness :
  exists N : nat, forall n : nat, (N <= n)%nat ->
    speed (ticks n [] [patchAtSlowStone] 1 slowStone) = 0
    /\ isMoving (ticks n [] [patchAtSlowStone] 1 slowStone) = false.
Proof.
  apply (every_stone_eventually_stops [] [patchAtSlowStone] 1 slowStone).
  - lra.
  - reflexivity.
Defined.

(** ** Energy and direction after a collision *)






(** ** More on scoring *)

Lemma filter_length_le {A} (p q : A -> bool) (l : list A) :
  (forall a, p a = true -> q a = true) ->
  (List.length (filter p l) <= List.length (filter q l))%nat.
Proof.
  intros H. induction l as [| a t IH]; simpl; [lia |].
  destruct (p a) eqn:Ep.
  - rewrite (H a Ep). simpl. lia.
  - destruct (q a); simpl; lia.
Qed.

Lemma filter_filter_length {A} (p q : A -> bool) (l : list A) :
  List.length (filter q (filter p l))
  = List.length (filter (fun a => p a && q a) l).
Proof.
  induction l as [| a t IH]; simpl; [reflexivity |].
  destruct (p a); simpl; [destruct (q a); simpl; congruence | exact IH].
Qed.

Lemma closest_stone_scores (house : list Stone) (w : Stone) :
  In w house ->
  (forall s, In s house -> distToButton w <= distToButton s) ->
  ~ tiedForClosest house ->
  scoringStone (team w) house w = true.
Proof.
  intros Hin Hmin Hnt. unfold scoringStone.
  rewrite (proj2 (team_eqb_eq _ _) eq_refl). simpl.
  apply forallb_forall. intros o Ho.
  destruct (team_eqb (team o) (team w)) eqn:Et; [reflexivity |]. simpl.
  apply team_eqb_neq in Et. apply Rltb_true_iff.
  destruct (Rle_lt_or_eq_dec _ _ (Hmin o Ho)) as [Hlt | Heq]; [exact Hlt |].
  exfalso. apply Hnt. exists w, o. repeat split; auto.
Qed.

(** X11: [calculateScore] gives no team exactly when no stone is in the
    house, and then 0 points; otherwise the points are at least 0 and at
    most the number of in-house stones of the scoring team, and at least
    1 unless two stones of different teams are tied for closest. *)
Theorem calculateScore_points_bounds (stones : list Stone) :
  (result_team (calculateScore stones) = None
   <-> filter inHouseb stones = [])
  /\ (result_team (calculateScore stones) = None ->
      points (calculateScore stones) = 0%Z)
  /\ (forall t, result_team (calculateScore stones) = Some t ->
        (0 <= points (calculateScore stones)
         <= Z.of_nat (List.length
              (filter (fun s => inHouseb s && team_eqb (team s) t) stones)))%Z
        /\ (~ tiedForClosest (filter inHouseb stones) ->
            (1 <= points (calculateScore stones))%Z)).
Proof.
  destruct (filter inHouseb stones) as [| h0 tl] eqn:Eh.
  - rewrite (calculateScore_blank stones Eh). simpl.
    split; [split; reflexivity |]. split; [reflexivity |].
    intros t Ht. discriminate Ht.
  - destruct (calculateScore_closest stones) as [w [Hin [Hmin Hres]]];
      [rewrite Eh; discriminate |].
    rewrite Hres. simpl. rewrite <- Eh.
    split; [split; intros H; [discriminate H | rewrite Eh in H; discriminate H] |].
    split; [intros H; discriminate H |].
    intros t Ht. injection Ht as <-.
    set (house := filter inHouseb stones) in *.
    split.
    + split; [lia |]. apply inj_le.
      unfold house at 2. rewrite <- filter_filter_length.
      fold house. apply filter_length_le.
      intros s Hs. unfold scoringStone in Hs.
      apply andb_true_iff in Hs. exact (proj1 Hs).
    + intros Hnt.
      pose proof (closest_stone_scores house w Hin Hmin Hnt) as Hw.
      assert (Hinf : In w (filter (scoringStone (team w) house) house))
        by (apply filter_In; split; assumption).
      destruct (filter (scoringStone (team w) house) house);
        [contradiction | simpl; lia].
Qed.

Lemma resync_house_entries (l : list Stone) :
  map entryOf (filter inHouseb (map stoneOfData (map snapshotOf l)))
  = map entryOf (filter inHouseb l).
Proof.
  induction l as [| s t IH]; simpl; [reflexivity |].
  assert (Hh : inHouseb (stoneOfData (snapshotOf s)) = inHouseb s)
    by (destruct s; reflexivity).
  assert (He : entryOf (stoneOfData (snapshotOf s)) = entryOf s)
    by (destruct s; reflexivity).
  rewrite Hh. destruct (inHouseb s); simpl; [rewrite He, IH | rewrite IH];
    reflexivity.
Qed.

(** X12: the score survives synchronisation: once a peer has handled the
    [sync-stones] message built from the owner's stones, [calculateScore]
    on its stones gives the owner's result, whatever it held before (the
    score reads only team, position and active flag). *)
Theorem calculateScore_same_after_sync
    (now : R) (ownerStones : list Stone) (g : GameManager) :
  calculateScore
    (stones (physics
       (handleRemoteAction now
          (ActSyncStones (map snapshotOf ownerStones)) g)))
  = calculateScore ownerStones.
Proof.
  simpl. rewrite !calculateScore_entries. rewrite resync_house_entries.
  reflexivity.
Qed.

(** ** Rule enforcement *)

(** X13: after the line check no stone in play rests beyond the centre
    line; the check moves no stone, brings none back into play, and
    stops the stones it retires. *)
Theorem checkHogLine_retires_short_stones (g : GameManager) :
  Forall (fun s => active s = true -> isMoving s = false ->
                   y s <= centerLineY SHEET)
    (stones (physics (checkHogLine g)))
  /\ Forall2 lineCheckKeeps (stones (physics g))
       (stones (physics (checkHogLine g))).
Proof.
  unfold checkHogLine, set_stones, set_physics.
  cbn [physics stones]. cbv zeta. split.
  - apply Forall_forall. intros s' Hin.
    apply in_map_iff in Hin. destruct Hin as [s [<- _]].
    destruct (active s && Rgtb (y s) (centerLineY SHEET) && negb (isMoving s))
      eqn:Ec; [cbn [active]; intros Hf; discriminate Hf |].
    intros Ha Hm. rewrite Ha, Hm in Ec. simpl in Ec.
    rewrite andb_true_r in Ec. apply Rgtb_false_iff in Ec. exact Ec.
  - apply Forall2_map_right. intros s. unfold lineCheckKeeps.
    destruct (active s && Rgtb (y s) (centerLineY SHEET) && negb (isMoving s))
      eqn:Ec; cbn [team x y vx vy radius active].
    + repeat split; try reflexivity. right.
      apply andb_true_iff in Ec. destruct Ec as [Ec _].
      apply andb_true_iff in Ec. destruct Ec as [Ea _].
      repeat split; auto.
    + repeat split; try reflexivity. left; reflexivity.
Qed.

Lemma set_stones_same (g : GameManager) :
  set_stones (stones (physics g)) g = g.
Proof. destruct g as [p]; destruct p; reflexivity. Qed.

Lemma fgzStep_in_place (currentTeam : Team) (stones : list Stone)
    (pre : StoneData) :
  (sd_team pre <> currentTeam -> sd_active pre = true -> inFGZ pre = true ->
   find (stillThere pre) stones <> None) ->
  fgzStep currentTeam stones pre = stones.
Proof.
  intros H. unfold fgzStep.
  destruct (team_eqb (sd_team pre) currentTeam) eqn:Et; [reflexivity |].
  destruct (sd_active pre) eqn:Ea; [| reflexivity].
  destruct (inFGZ pre) eqn:Ez; [| reflexivity]. simpl.
  apply team_eqb_neq in Et. specialize (H Et eq_refl eq_refl).
  destruct (find (stillThere pre) stones); [reflexivity | contradiction].
Qed.

(** X14: a throw that disturbs no protected stone is left alone: when
    every active opponent stone of the snapshot that was in the free
    guard zone is still found at rest at its snapshot position,
    [enforceFreeGuardZone] changes nothing (no stone is moved, added or
    retired). *)
Theorem enforceFreeGuardZone_leaves_clean_throw (g : GameManager) :
  (forall pre, In pre (preThrowPositions g) ->
     sd_team pre <> currentTeam g -> sd_active pre = true ->
     inFGZ pre = true ->
     find (stillThere pre) (stones (physics g)) <> None) ->
  enforceFreeGuardZone g = g.
Proof.
  intros H. unfold enforceFreeGuardZone.
  destruct (totalThrown g >? FGZ_STONE_COUNT)%Z; [reflexivity |].
  assert (Hfold : fold_left (fgzStep (currentTeam g)) (preThrowPositions g)
                    (stones (physics g)) = stones (physics g)).
  { revert H. generalize (stones (physics g)) as l.
    induction (preThrowPositions g) as [| pre rest IH]; intros l H; simpl;
      [reflexivity |].
    rewrite fgzStep_in_place by (apply H; left; reflexivity).
    apply IH. intros pre' Hin. apply H. right; exact Hin. }
  rewrite Hfold. apply set_stones_same.
Qed.

Lemma guardInPlace_stillThere : stillThere guardBefore guardInPlace = true.
Proof.
  unfold stillThere, guardBefore, guardInPlace, isMoving, speed; simpl.
  replace (0 * 0 + 0 * 0) with 0 by ring. rewrite sqrt_0.
  replace (10 - 10) with 0 by ring. replace (150 - 150) with 0 by ring.
  rewrite Rabs_R0. unfold MIN_VELOCITY. decide_cmp. reflexivity.
Qed.

Lemma enforceFreeGuardZone_leaves_clean_throw_witness :
  enforceFreeGuardZone afterCleanThrow = afterCleanThrow.
Proof.
  apply (enforceFreeGuardZone_leaves_clean_throw afterCleanThrow).
  intros pre [<- | []] _ _ _. simpl.
  rewrite guardInPlace_stillThere. discriminate.
Defined.

Lemma fgzStep_teleport_witness :
  fgzStep Red ([guardNudged] ++ [thrownStone]) guardBefore
  = updateAt 0 (teleport (sd_x guardBefore) (sd_y guardBefore)) [guardNudged]
    ++ [retire thrownStone].
Proof.
  apply (fgzStep_teleport Red [guardNudged] thrownStone guardBefore 0).
  - reflexivity.
  - discriminate.
  - reflexivity.
  - exact guardBefore_inFGZ.
  - simpl. unfold stillThere, guardBefore, guardNudged; simpl.
    replace (Rabs (40 - 10)) with 30 by (rewrite Rabs_right; lra).
    decide_cmp. rewrite !andb_false_r. reflexivity.
  - simpl. unfold movedAway, guardBefore, guardNudged; simpl.
    replace (Rabs (40 - 10)) with 30 by (rewrite Rabs_right; lra).
    decide_cmp. reflexivity.
Defined.

(** ** The end of an end *)

Lemma calculateScore_points_nonneg (stones : list Stone) :
  (0 <= points (calculateScore stones))%Z.
Proof.
  rewrite calculateScore_entries.
  destruct (sortByDistance _); simpl; [lia | unfold pointsFor; lia].
Qed.

(** X16: [endEnd] never lowers a score: the scoring team gains exactly the
    points of [calculateScore], the other score is unchanged, and the
    hammer goes to the team that did not score; on a blank end scores and
    hammer stay as they are.  The end counter goes up by one, the phase
    becomes [end_over], and the stones are not touched. *)
Theorem endEnd_scores_never_decrease (g : GameManager) :
  let r := calculateScore (stones (physics g)) in
  (fst (scores g) <= fst (scores (endEnd g)))%Z
  /\ (snd (scores g) <= snd (scores (endEnd g)))%Z
  /\ (forall t, result_team r = Some t ->
        at_team (scores (endEnd g)) t = (at_team (scores g) t + points r)%Z
        /\ at_team (scores (endEnd g)) (otherTeam t)
           = at_team (scores g) (otherTeam t)
        /\ hammer (endEnd g) = otherTeam t)
  /\ (result_team r = None ->
        scores (endEnd g) = scores g /\ hammer (endEnd g) = hammer g)
  /\ currentEnd (endEnd g) = (currentEnd g + 1)%Z
  /\ state (endEnd g) = end_over
  /\ physics (endEnd g) = physics g.
Proof.
  cbv zeta. pose proof (calculateScore_points_nonneg (stones (physics g))) as Hp.
  unfold endEnd.
  destruct (result_team (calculateScore (stones (physics g)))) as [t |] eqn:Er;
    simpl.
  - destruct (scores g) as [s0 s1].
    destruct t; simpl;
      (split; [lia |]); (split; [lia |]);
      (split; [intros t' Ht; injection Ht as <-; simpl;
               repeat split; reflexivity |]);
      (split; [intros Hf; discriminate Hf |]);
      repeat split; reflexivity.
  - split; [lia |]. split; [lia |].
    split; [intros t' Ht; discriminate Ht |].
    repeat split; reflexivity.
Qed.

(** ** Who may throw *)

Lemma nextTurn_turnOpen (now : R) (g : GameManager) :
  turnOpen (nextTurn now g).
Proof.
  unfold turnOpen, canAim. intros Hc.
  destruct (nextTurn_effect now g) as [Hst Hs].
  destruct (totalThrown g >=? 16)%Z eqn:E.
  - rewrite Hs in Hc. destruct Hc as [H | [H | H]]; discriminate H.
  - rewrite Z.geb_leb in E. apply Z.leb_gt in E.
    split; [unfold totalThrown in *; rewrite Hst; exact E |].
    rewrite Hst. clear Hs Hc Hst. revert E.
    unfold nextTurn, totalThrown.
    destruct (fst (stonesThrown g) + snd (stonesThrown g) >=? 16)%Z eqn:E2;
      [intros E; rewrite Z.geb_leb in E2; apply Z.leb_le in E2; lia |].
    intros E.
    destruct (currentTeam g) eqn:Ec; cbn [at_team];
      match goal with
      | |- context [(?v <? 8)%Z] => destruct (Z.ltb_spec v 8)
      end; cbn; rewrite ?Ec; cbn [at_team]; lia.
Qed.

Lemma turnOpen_same (g g' : GameManager) :
  stonesThrown g' = stonesThrown g -> currentTeam g' = currentTeam g ->
  (canAim g' -> canAim g) ->
  turnOpen g -> turnOpen g'.
Proof.
  intros Hst Hc Hcan H Hcan'. unfold totalThrown. rewrite Hst, Hc.
  exact (H (Hcan Hcan')).
Qed.

Lemma turnOpen_not_aiming (g : GameManager) :
  state g = waiting \/ state g = end_over -> turnOpen g.
Proof.
  intros Hs [H | [H | H]]; destruct Hs as [Hs | Hs]; congruence.
Qed.

Lemma cooldownTimer_turn (now : R) (g : GameManager) :
  stonesThrown (cooldownTimer now g) = stonesThrown g
  /\ currentTeam (cooldownTimer now g) = currentTeam g
  /\ (canAim (cooldownTimer now g) -> canAim g).
Proof.
  unfold cooldownTimer, canAim.
  destruct (phase_eqb (state g) cooldown) eqn:E; [| auto].
  apply phase_eqb_eq in E.
  destruct (Rgeb _ _); auto.
Qed.

Lemma simulationStep_cases (now : R) (g : GameManager) :
  simulationStep now g = g
  \/ state (simulationStep now g) = waiting
  \/ exists g1, simulationStep now g = nextTurn now g1.
Proof.
  unfold simulationStep.
  destruct (phase_eqb (state g) waiting) eqn:E; [| left; reflexivity].
  apply phase_eqb_eq in E. cbv zeta.
  match goal with
  | |- context [negb (anyMoving ?l)] => destruct (negb (anyMoving l))
  end.
  - right; right. eexists. reflexivity.
  - right; left. exact E.
Qed.

(** Every event keeps the turn open. *)
Lemma handle_turnOpen (e : Event) (g : GameManager) :
  turnOpen g -> turnOpen (handle e g).
Proof.
  intros H.
  assert (Hsame : forall g' : GameManager,
            stonesThrown g' = stonesThrown g ->
            currentTeam g' = currentTeam g ->
            state g' = state g -> turnOpen g').
  { intros g' H1 H2 H3. apply (turnOpen_same g g' H1 H2); [| exact H].
    unfold canAim. rewrite H3. trivial. }
  destruct e as [now | gp | gp newAim dragPower | | ratio | finalAngle |
                 | now action | st].
  - (* Frame *)
    cbn [handle]. destruct (phase_eqb (state g) lobby); [exact H |].
    unfold update.
    assert (Hafter : turnOpen (updateAfterTimer now g)).
    { unfold updateAfterTimer.
      destruct (cooldownTimer_turn now g) as [C1 [C2 C3]].
      pose proof (turnOpen_same g _ C1 C2 C3 H) as Hc.
      destruct (simulationStep_cases now (cooldownTimer now g))
        as [-> | [Hw | [g1 ->]]].
      - exact Hc.
      - apply turnOpen_not_aiming. left; exact Hw.
      - apply nextTurn_turnOpen. }
    destruct ((phase_eqb (state g) aiming || phase_eqb (state g) aim_locked)
              && isMyTurn g); [| exact Hafter].
    destruct (Rgeb _ _); [apply nextTurn_turnOpen | exact Hafter].
  - (* MouseDown *)
    cbn [handle]. unfold onDown.
    destruct (phase_eqb (state g) aiming && isMyTurn g);
      [apply Hsame; reflexivity |].
    destruct (phase_eqb (state g) waiting && Rgtb (sweepEnergy g) 0);
      [apply Hsame; reflexivity | exact H].
  - (* MouseMove *)
    cbn [handle]. unfold onMove.
    destruct (phase_eqb (state g) waiting).
    + destruct (isSweeping g && Rgtb (sweepEnergy g) 0); [| exact H].
      destruct (Rleb _ 0); apply Hsame; reflexivity.
    + destruct (negb (isDragging g) || negb (phase_eqb (state g) aiming));
        [exact H |].
      destruct newAim; apply Hsame; reflexivity.
  - (* MouseUp *)
    cbn [handle]. unfold onUp.
    destruct (isSweeping g); [apply Hsame; reflexivity |].
    destruct (negb (isDragging g) || negb (phase_eqb (state g) aiming)
              || negb (isMyTurn g)) eqn:Eg; [exact H |].
    apply orb_false_iff in Eg. destruct Eg as [Eg _].
    apply orb_false_iff in Eg. destruct Eg as [_ Eg].
    apply negb_false_iff, phase_eqb_eq in Eg.
    destruct (aimTarget (set_isDragging false g));
      [| apply Hsame; reflexivity].
    apply (turnOpen_same g); [reflexivity | reflexivity | | exact H].
    intros _. left; exact Eg.
  - (* SliderSet *)
    apply Hsame; reflexivity.
  - (* LaunchClick *)
    cbn [handle]. unfold onLaunchClick.
    destruct (phase_eqb (state g) aim_locked); simpl negb; cbv iota;
      [| exact H].
    set (g1 := if Rltb (power g) (3 / 100) then set_power (3 / 100) g else g).
    assert (H1 : turnOpen g1)
      by (unfold g1; destruct (Rltb _ _); [apply Hsame; reflexivity | exact H]).
    pose proof (launchStone_effect finalAngle g1) as HL.
    destruct (aimTarget g1).
    + apply turnOpen_not_aiming. left. exact (proj2 HL).
    + rewrite HL. exact H1.
  - (* CancelClick *)
    cbn [handle]. unfold onCancelClick.
    destruct (phase_eqb (state g) aim_locked) eqn:El; simpl negb; cbv iota;
      [| exact H].
    apply phase_eqb_eq in El.
    apply (turnOpen_same g); [reflexivity | reflexivity | | exact H].
    intros _. right; left; exact El.
  - (* Remote *)
    destruct action as [t avx avy apower aim zones | px py | t | sd |];
      cbn [handle handleRemoteAction].
    + apply turnOpen_not_aiming. left.
      apply launchStoneFromAction_effect.
    + apply Hsame; reflexivity.
    + apply nextTurn_turnOpen.
    + apply Hsame; reflexivity.
    + exact H.
  - (* RemoteGameState *)
    cbn [handle]. unfold syncFromRemote.
    destruct (rs_scores st), (rs_currentEnd st) as [c |], (rs_hammer st);
      try destruct (Z.eqb c 0); apply Hsame; reflexivity.
Qed.

(** X17: whatever the peer sends and whatever the local player does, in
    every state reached from [startEnd()] in which a stone can still be
    thrown this turn (phases [aiming], [aim_locked], [cooldown]) fewer
    than 16 stones have been thrown and the team to throw has thrown
    fewer than 8. *)
Theorem throw_only_with_stones_left
    (zones : list Zone) (now : R) (g0 : GameManager) (evs : list Event) :
  turnOpen (run evs (startEnd zones now g0)).
Proof.
  assert (H0 : turnOpen (startEnd zones now g0)).
  { intros _. unfold startEnd, totalThrown. cbn.
    split; [lia | destruct (hammer g0); cbn; lia]. }
  revert H0. generalize (startEnd zones now g0) as g.
  induction evs as [| e rest IH]; intros g Hg; simpl; [exact Hg |].
  apply IH. apply handle_turnOpen. exact Hg.
Qed.

(** ** Out of turn *)

Lemma handle_out_of_turn (e : Event) (g : GameManager) :
  state g = aiming -> isMyTurn g = false -> isLocalEvent e = true ->
  physics (handle e g) = physics g
  /\ stonesThrown (handle e g) = stonesThrown g
  /\ currentTeam (handle e g) = currentTeam g
  /\ scores (handle e g) = scores g
  /\ hammer (handle e g) = hammer g
  /\ currentEnd (handle e g) = currentEnd g
  /\ state (handle e g) = aiming
  /\ isMyTurn (handle e g) = false.
Proof.
  intros Hs Ht He.
  assert (Hid : physics g = physics g /\ stonesThrown g = stonesThrown g
                /\ currentTeam g = currentTeam g /\ scores g = scores g
                /\ hammer g = hammer g /\ currentEnd g = currentEnd g
                /\ state g = aiming /\ isMyTurn g = false)
    by (repeat split; assumption).
  destruct e as [now | gp | gp newAim dragPower | | ratio | finalAngle |
                 | now action | st]; try discriminate He; cbn [handle].
  - rewrite Hs. cbn [phase_eqb].
    unfold update, updateAfterTimer, cooldownTimer, simulationStep.
    rewrite Hs, Ht. cbn [phase_eqb orb andb]. rewrite Hs. cbn [phase_eqb].
    exact Hid.
  - unfold onDown. rewrite Hs, Ht. cbn [phase_eqb andb]. exact Hid.
  - unfold onMove. rewrite Hs. cbn [phase_eqb negb orb].
    rewrite orb_false_r.
    destruct (negb (isDragging g)); [exact Hid |].
    destruct newAim; repeat split; assumption.
  - unfold onUp. destruct (isSweeping g); [repeat split; assumption |].
    rewrite Ht. cbn [negb]. rewrite orb_true_r. exact Hid.
  - repeat split; assumption.
  - unfold onLaunchClick. rewrite Hs. cbn [phase_eqb negb]. exact Hid.
  - unfold onCancelClick. rewrite Hs. cbn [phase_eqb negb]. exact Hid.
Qed.

(** X18: while the opponent is aiming, nothing the local player does and
    no frame of the local game loop changes the match: after any sequence
    of local events the stones and zones, the throw counts, the team to
    throw, scores, hammer, end number and phase are as before. *)
Theorem local_events_out_of_turn_change_nothing
    (evs : list Event) (g : GameManager) :
  state g = aiming -> isMyTurn g = false ->
  forallb isLocalEvent evs = true ->
  physics (run evs g) = physics g
  /\ stonesThrown (run evs g) = stonesThrown g
  /\ currentTeam (run evs g) = currentTeam g
  /\ scores (run evs g) = scores g
  /\ hammer (run evs g) = hammer g
  /\ currentEnd (run evs g) = currentEnd g
  /\ state (run evs g) = aiming.
Proof.
  revert g. induction evs as [| e rest IH]; intros g Hs Ht Hl; simpl.
  - repeat split; assumption.
  - simpl in Hl. apply andb_true_iff in Hl. destruct Hl as [He Hl].
    destruct (handle_out_of_turn e g Hs Ht He)
      as [P1 [P2 [P3 [P4 [P5 [P6 [P7 P8]]]]]]].
    destruct (IH (handle e g) P7 P8 Hl)
      as [Q1 [Q2 [Q3 [Q4 [Q5 [Q6 Q7]]]]]].
    fold (run rest (handle e g)).
    repeat split; congruence.
Qed.

Lemma local_events_out_of_turn_change_nothing_witness :
  stonesThrown (run [MouseDown (120, 700); MouseUp; LaunchClick 0; Frame 20000]
                    firstEndStart)
  = stonesThrown firstEndStart.
Proof.
  apply (local_events_out_of_turn_change_nothing
           [MouseDown (120, 700); MouseUp; LaunchClick 0; Frame 20000]
           firstEndStart); reflexivity.
Defined.

(** ** The throw on both peers *)

(** X19: the peer reproduces the throw: when the receiver holds the same
    stones and throw counts as the thrower (and the same rough zones,
    unless this is the first throw of the end, whose message carries
    them), handling the [launch] message leaves it with the same stones
    and zones, throw counts, pre-throw snapshot and throwing team as
    [launchStone()] leaves the thrower, both in phase [waiting]; the
    thrown stone is the last of the array and the snapshot is the array
    before it. *)
Theorem launch_reproduced_by_peer
    (finalAngle now : R) (g1 g2 : GameManager) (a : R * R) :
  aimTarget g1 = Some a ->
  stones (physics g2) = stones (physics g1) ->
  stonesThrown g2 = stonesThrown g1 ->
  (totalThrown g1 = 0%Z
   \/ roughZones (physics g2) = roughZones (physics g1)) ->
  let thrower := launchStone finalAngle g1 in
  let receiver := handleRemoteAction now (launchActionOf finalAngle g1) g2 in
  physics receiver = physics thrower
  /\ stonesThrown receiver = stonesThrown thrower
  /\ preThrowPositions receiver = preThrowPositions thrower
  /\ currentTeam receiver = currentTeam thrower
  /\ state receiver = waiting /\ state thrower = waiting
  /\ (exists st, stones (physics thrower) = stones (physics g1) ++ [st]
                 /\ team st = currentTeam g1)
  /\ preThrowPositions thrower = map snapshotOf (stones (physics g1)).
Proof.
  intros Ha Hst Hth Hz. cbv zeta.
  unfold launchStone, launchActionOf. rewrite Ha.
  cbn [handleRemoteAction]. unfold launchStoneFromAction.
  destruct g1 as [p1 ? ? ? th1 ct1 ? ? ? pw1 ? ? ? ? ? ? ? ? ? ? ?].
  destruct g2 as [p2 ? ? ? th2 ct2 ? ? ? pw2 ? ? ? ? ? ? ? ? ? ? ?].
  destruct p1 as [l1 sw1 ro1], p2 as [l2 sw2 ro2].
  cbn in Ha, Hst, Hth, Hz. subst.
  unfold totalThrown in *. cbn in Hz |- *.
  assert (Hro : (if (fst th1 + snd th1 =? 0)%Z
                 then ro1 else ro2) = ro1).
  { destruct (fst th1 + snd th1 =? 0)%Z eqn:E; [reflexivity |].
    destruct Hz as [Hz | Hz]; [| exact Hz].
    rewrite Hz in E. discriminate E. }
  destruct (fst th1 + snd th1 =? 0)%Z; cbn;
    (split; [unfold addStone, clearSweepZones; cbn; congruence |]);
    repeat split; try reflexivity; eexists; split; reflexivity.
Qed.

Lemma launch_reproduced_by_peer_witness :
  physics (handleRemoteAction 0
             (launchActionOf 0 (set_aimTarget (Some (120, 690)) firstEndStart))
             firstEndStart)
  = physics (launchStone 0 (set_aimTarget (Some (120, 690)) firstEndStart)).
Proof.
  apply (launch_reproduced_by_peer 0 0
           (set_aimTarget (Some (120, 690)) firstEndStart)
           firstEndStart (120, 690)).
  - reflexivity.
  - reflexivity.
  - reflexivity.
  - left. reflexivity.
Defined.

(** ** Stones keep the standard radius *)

Lemma Forall_updateAt {A} (P : A -> Prop) (i : nat) (f : A -> A) (l : list A) :
  (forall a, P a -> P (f a)) -> Forall P l -> Forall P (updateAt i f l).
Proof.
  intros Hf H. revert i. induction H as [| a t Ha Ht IH]; intros [| j]; simpl;
    constructor; auto.
Qed.

Lemma fgzStep_standard (ct : Team) (l : list Stone) (pre : StoneData) :
  standardStones l -> standardStones (fgzStep ct l pre).
Proof.
  intros H. unfold fgzStep.
  destruct (team_eqb (sd_team pre) ct); [exact H |].
  destruct (negb (sd_active pre)); [exact H |].
  destruct (negb (inFGZ pre)); [exact H |].
  destruct (find (stillThere pre) l); [exact H |].
  cbv zeta.
  set (l1 := match findIndex (movedAway pre) l with
             | Some i => updateAt i (teleport (sd_x pre) (sd_y pre)) l
             | None => l ++ [newStone (sd_team pre) (sd_x pre) (sd_y pre)]
             end).
  assert (H1 : standardStones l1).
  { unfold l1. destruct (findIndex (movedAway pre) l).
    - apply Forall_updateAt; [intros s Hs; exact Hs | exact H].
    - apply Forall_app. split; [exact H |].
      constructor; [reflexivity | constructor]. }
  destruct (nth_error l1 _); [| exact H1].
  destruct (team_eqb _ ct); [| exact H1].
  apply Forall_updateAt; [intros s0 Hs; exact Hs | exact H1].
Qed.

Lemma enforceFreeGuardZone_standard (g : GameManager) :
  standardStones (stones (physics g)) ->
  standardStones (stones (physics (enforceFreeGuardZone g))).
Proof.
  intros H. unfold enforceFreeGuardZone.
  destruct (totalThrown g >? FGZ_STONE_COUNT)%Z; [exact H |].
  cbn. revert H. generalize (stones (physics g)) as l.
  induction (preThrowPositions g) as [| pre rest IH]; intros l H; simpl;
    [exact H |].
  apply IH. apply fgzStep_standard. exact H.
Qed.

Lemma checkHogLine_standard (g : GameManager) :
  standardStones (stones (physics g)) ->
  standardStones (stones (physics (checkHogLine g))).
Proof.
  intros H. unfold checkHogLine, set_stones, set_physics.
  cbn [physics stones]. cbv zeta.
  unfold standardStones in *. rewrite Forall_forall in *.
  intros s' Hin. apply in_map_iff in Hin. destruct Hin as [s [<- Hs]].
  destruct (active s && _ && _); [cbn; apply H; exact Hs | apply H; exact Hs].
Qed.

Lemma Physics_update_standard (b : Bounds) (e : Z) (p : PhysicsEngine) :
  standardStones (stones p) ->
  standardStones (stones (Physics_update b e p)).
Proof.
  intros H. pose proof (Physics_update_tickKeeps b e p) as HF.
  revert H. unfold standardStones.
  induction HF as [| s s' l l' Hs _ IH]; intros H; [constructor |].
  inversion H as [| ? ? Hr Hl]; subst.
  constructor; [| apply IH; exact Hl].
  destruct Hs as [_ [Hrad _]]. congruence.
Qed.

Lemma nextTurn_physics (now : R) (g : GameManager) :
  physics (nextTurn now g) = physics g.
Proof.
  unfold nextTurn. destruct (totalThrown g >=? 16)%Z.
  - unfold endEnd.
    destruct (result_team (calculateScore (stones (physics g)))); reflexivity.
  - destruct (at_team (stonesThrown g) _ <? 8)%Z; reflexivity.
Qed.

Lemma simulationStep_standard (now : R) (g : GameManager) :
  standardStones (stones (physics g)) ->
  standardStones (stones (physics (simulationStep now g))).
Proof.
  intros H. unfold simulationStep.
  destruct (phase_eqb (state g) waiting); [| exact H]. cbv zeta.
  set (g1 := set_physics _ g).
  assert (H1 : standardStones (stones (physics g1)))
    by (apply Physics_update_standard; exact H).
  destruct (negb (anyMoving (stones (physics g1)))); [| exact H1].
  rewrite nextTurn_physics.
  change (standardStones (stones (physics (checkHogLine (enforceFreeGuardZone
            (if isLaunchOwner g1 then set_isLaunchOwner false g1 else g1)))))).
  apply checkHogLine_standard, enforceFreeGuardZone_standard.
  destruct (isLaunchOwner g1); exact H1.
Qed.

Lemma handle_standard (e : Event) (g : GameManager) :
  standardStones (stones (physics g)) ->
  standardStones (stones (physics (handle e g))).
Proof.
  intros H.
  assert (Hadd : forall (p : PhysicsEngine) (s : Stone),
            standardStones (stones p) -> radius s = STONE_RADIUS ->
            standardStones (stones (clearSweepZones (addStone s p)))).
  { intros p s Hp Hs. cbn. apply Forall_app. split; [exact Hp |].
    constructor; [exact Hs | constructor]. }
  destruct e as [now | gp | gp newAim dragPower | | ratio | finalAngle |
                 | now action | st]; cbn [handle].
  - destruct (phase_eqb (state g) lobby); [exact H |].
    unfold update.
    assert (Hafter : standardStones (stones (physics (updateAfterTimer now g)))).
    { unfold updateAfterTimer. apply simulationStep_standard.
      unfold cooldownTimer. destruct (phase_eqb (state g) cooldown); [| exact H].
      destruct (Rgeb _ _); exact H. }
    destruct (_ && isMyTurn g); [| exact Hafter].
    destruct (Rgeb _ _); [| exact Hafter].
    rewrite nextTurn_physics. exact H.
  - unfold onDown. destruct (_ && isMyTurn g); [exact H |].
    destruct (_ && _); [| exact H].
    cbn. unfold addSweepZone. destruct (find _ _); exact H.
  - unfold onMove. destruct (phase_eqb (state g) waiting).
    + destruct (_ && _); [| exact H].
      assert (Hs : standardStones (stones (physics (sweepAt gp g))))
        by (cbn; unfold addSweepZone; destruct (find _ _); exact H).
      destruct (Rleb _ 0); exact Hs.
    + destruct (_ || _); [exact H |]. destruct newAim; exact H.
  - unfold onUp. destruct (isSweeping g); [exact H |].
    destruct (_ || _); [exact H |].
    destruct (aimTarget _); exact H.
  - exact H.
  - unfold onLaunchClick. destruct (negb _); [exact H |].
    set (g1 := if Rltb (power g) (3 / 100) then set_power (3 / 100) g else g).
    assert (H1 : standardStones (stones (physics g1)))
      by (unfold g1; destruct (Rltb _ _); exact H).
    unfold launchStone. destruct (aimTarget g1); [| exact H1].
    apply (Hadd (physics g1)); [exact H1 | reflexivity].
  - unfold onCancelClick. destruct (negb _); exact H.
  - destruct action as [t avx avy apower aim zones | px py | t | sd |];
      cbn [handleRemoteAction].
    + unfold launchStoneFromAction.
      match goal with
      | |- context [addStone ?s (physics ?g1)] =>
          apply (Hadd (physics g1) s); [| reflexivity]
      end.
      destruct zones; exact H.
    + cbn. unfold addSweepZone. destruct (find _ _); exact H.
    + rewrite nextTurn_physics. exact H.
    + cbn. unfold standardStones. apply Forall_forall.
      intros s Hs. apply in_map_iff in Hs. destruct Hs as [d [<- _]].
      reflexivity.
    + exact H.
  - unfold syncFromRemote.
    destruct (rs_scores st), (rs_currentEnd st) as [c |], (rs_hammer st);
      try destruct (Z.eqb c 0); exact H.
Qed.

Lemma run_standard (evs : list Event) (g : GameManager) :
  standardStones (stones (physics g)) ->
  standardStones (stones (physics (run evs g))).
Proof.
  revert g. induction evs as [| e rest IH]; intros g H; simpl; [exact H |].
  apply IH, handle_standard, H.
Qed.

Lemma resync_standard (l : list Stone) :
  standardStones l -> map stoneOfData (map snapshotOf l) = l.
Proof.
  induction 1 as [| s t Hs _ IH]; simpl; [reflexivity |].
  rewrite IH. f_equal. destruct s; simpl in *. subst. reflexivity.
Qed.

(** X20: the [sync-stones] round trip is exact: in every state a peer can
    reach from [startEnd()] all stones have the standard radius, so a
    peer that handles the message built from that state ends up with
    exactly the owner's stone array. *)
Theorem sync_round_trip_exact
    (zones : list Zone) (now0 now : R) (g0 g2 : GameManager)
    (evs : list Event) :
  let owner := run evs (startEnd zones now0 g0) in
  standardStones (stones (physics owner))
  /\ stones (physics (handleRemoteAction now (syncActionOf owner) g2))
     = stones (physics owner).
Proof.
  cbv zeta.
  assert (H : standardStones
                (stones (physics (run evs (startEnd zones now0 g0)))))
    by (apply run_standard; constructor).
  split; [exact H |].
  unfold syncActionOf. cbn. apply resync_standard. exact H.
Qed.

(** ** The launched stone *)




(** ** Utilities *)

(** X22: [clamp] never returns less than [min]; when [min <= max] it never
    returns more than [max], and it returns a value that is already in
    range unchanged. *)
Theorem clamp_in_range (val min max : R) :
  min <= clamp val min max
  /\ (min <= max -> clamp val min max <= max)
  /\ (min <= val <= max -> clamp val min max = val).
Proof.
  unfold clamp. split; [apply Rmax_l |]. split.
  - intros H. apply Rmax_lub; [exact H | apply Rmin_l].
  - intros [H1 H2]. rewrite (Rmin_right max val H2).
    apply Rmax_right. exact H1.
Qed.





(** ** Rough zones *)




(** * The relay server *)

Lemma otherSocket_filter_id (sid : String.string) (l : list String.string) :
  ~ In sid l -> filter (otherSocket sid) l = l.
Proof.
  induction l as [| a t IH]; intros H; simpl; [reflexivity |].
  unfold otherSocket at 1.
  destruct (String.eqb a sid) eqn:E.
  - apply String.eqb_eq in E. exfalso. apply H. left; exact E.
  - simpl. rewrite IH; [reflexivity |]. intros Hin. apply H. right; exact Hin.
Qed.

Lemma otherSocket_filter_not_in (sid : String.string) (l : list String.string) :
  ~ In sid (filter (otherSocket sid) l).
Proof.
  intros H. apply filter_In in H. destruct H as [_ H].
  unfold otherSocket in H. rewrite String.eqb_refl in H. discriminate H.
Qed.


Lemma filter_players_sockets (sid : String.string) (ps : list Player) :
  map player_id (filter (fun p => negb (isSocket sid p)) ps)
  = filter (otherSocket sid) (map player_id ps).
Proof.
  induction ps as [| p t IH]; simpl; [reflexivity |].
  unfold isSocket at 1, otherSocket at 1.
  destruct (String.eqb (player_id p) sid); simpl; [exact IH | rewrite IH; reflexivity].
Qed.

Lemma hasPlayer_In (sid : String.string) (l : Lobby) :
  hasPlayer sid l = true <-> In sid (lobbySockets l).
Proof.
  unfold hasPlayer, lobbySockets. rewrite existsb_exists. split.
  - intros [p [Hp He]]. apply String.eqb_eq in He. subst.
    apply in_map. exact Hp.
  - intros H. apply in_map_iff in H. destruct H as [p [He Hp]].
    exists p. split; [exact Hp | apply String.eqb_eq; exact He].
Qed.

Lemma find_isSocket_none (sid : String.string) (ps : list Player) :
  find (isSocket sid) ps = None -> ~ In sid (map player_id ps).
Proof.
  intros H Hin. apply in_map_iff in Hin. destruct Hin as [p [He Hp]].
  pose proof (find_none _ _ H p Hp) as Hf. unfold isSocket in Hf.
  rewrite He, String.eqb_refl in Hf. discriminate Hf.
Qed.

Lemma leaveLobby_sockets (sid : String.string) (l : Lobby) :
  lobbySockets (leaveLobby sid l) = filter (otherSocket sid) (lobbySockets l)
  /\ lobby_id (leaveLobby sid l) = lobby_id l.
Proof.
  unfold leaveLobby, lobbySockets.
  destruct (find (isSocket sid) (players l)) eqn:Ef.
  - cbv zeta. cbn [players lobby_id]. split; [| reflexivity].
    rewrite <- filter_players_sockets.
    destruct (filter _ (players l)) as [| p0 [| p1 t]]; reflexivity.
  - split; [| reflexivity].
    symmetry. apply otherSocket_filter_id, find_isSocket_none, Ef.
Qed.

Lemma leaveLobby_ok (sid : String.string) (l : Lobby) :
  lobbyOk l -> lobbyOk (leaveLobby sid l).
Proof.
  intros [Ht Hs]. unfold leaveLobby.
  destruct (find (isSocket sid) (players l)) eqn:Ef; [| split; assumption].
  cbv zeta. split; [| cbn [status]; destruct (0 <? _)%nat; intros H; discriminate H].
  cbn [players].
  destruct (players l) as [| a [| b [| c t]]]; simpl in *.
  - discriminate Ef.
  - destruct (isSocket sid a); simpl; auto.
  - destruct (isSocket sid a), (isSocket sid b); simpl; auto.
  - destruct Ht as [Ht | [Ht | Ht]]; discriminate Ht.
Qed.

Lemma updateAt_cons_S {A} (i : nat) (f : A -> A) (a : A) (l : list A) :
  updateAt (S i) f (a :: l) = a :: updateAt i f l.
Proof. reflexivity. Qed.

Lemma leaveCurrent_cons (sid : String.string) (l : Lobby) (rest : list Lobby) :
  leaveCurrent sid (l :: rest)
  = if hasPlayer sid l then leaveLobby sid l :: rest
    else l :: leaveCurrent sid rest.
Proof.
  unfold leaveCurrent. simpl.
  destruct (hasPlayer sid l); [reflexivity |].
  destruct (findIndex (hasPlayer sid) rest); reflexivity.
Qed.

Lemma NoDup_app_disjoint {A} (l1 l2 : list A) (a : A) :
  NoDup (l1 ++ l2) -> In a l1 -> ~ In a l2.
Proof.
  induction l1 as [| b t IH]; simpl; intros Hnd Hin; [contradiction |].
  inversion Hnd as [| ? ? Hb Ht]; subst.
  destruct Hin as [-> | Hin]; [| exact (IH Ht Hin)].
  intros H2. apply Hb. apply in_or_app. right; exact H2.
Qed.

Lemma allSockets_cons (l : Lobby) (rest : list Lobby) :
  allSockets (l :: rest) = lobbySockets l ++ allSockets rest.
Proof. reflexivity. Qed.

Lemma allSockets_leaveCurrent (sid : String.string) (L : list Lobby) :
  NoDup (allSockets L) ->
  allSockets (leaveCurrent sid L) = filter (otherSocket sid) (allSockets L).
Proof.
  induction L as [| l rest IH]; intros Hnd; [reflexivity |].
  rewrite leaveCurrent_cons. rewrite allSockets_cons in *.
  rewrite filter_app.
  destruct (hasPlayer sid l) eqn:Eh; rewrite allSockets_cons.
  - rewrite (proj1 (leaveLobby_sockets sid l)). f_equal.
    symmetry. apply otherSocket_filter_id.
    apply hasPlayer_In in Eh.
    exact (NoDup_app_disjoint _ _ sid Hnd Eh).
  - rewrite IH by (eapply NoDup_app_remove_l; exact Hnd). f_equal.
    symmetry. apply otherSocket_filter_id.
    intros Hin. apply hasPlayer_In in Hin. congruence.
Qed.

Lemma map_updateAt_same {A B} (g : A -> B) (i : nat) (f : A -> A)
    (l : list A) :
  (forall a, g (f a) = g a) -> map g (updateAt i f l) = map g l.
Proof.
  intros H. revert i. induction l as [| a t IH]; intros [| j]; simpl;
    try reflexivity; [rewrite H | rewrite IH]; reflexivity.
Qed.

Lemma flat_map_updateAt_same {A B} (g : A -> list B) (i : nat) (f : A -> A)
    (l : list A) :
  (forall a, g (f a) = g a) -> flat_map g (updateAt i f l) = flat_map g l.
Proof.
  intros H. revert i. induction l as [| a t IH]; intros [| j]; simpl;
    try reflexivity; [rewrite H | rewrite IH]; reflexivity.
Qed.

Lemma Forall_updateAt_nth {A} (P : A -> Prop) (i : nat) (f : A -> A)
    (l : list A) :
  Forall P l -> (forall a, nth_error l i = Some a -> P (f a)) ->
  Forall P (updateAt i f l).
Proof.
  intros H. revert i. induction H as [| a t Ha Ht IH]; intros [| j] Hf; simpl;
    constructor; auto.
Qed.

Lemma nth_error_updateAt {A} (i : nat) (f : A -> A) (l : list A) (a : A) :
  nth_error l i = Some a -> nth_error (updateAt i f l) i = Some (f a).
Proof.
  revert i. induction l as [| b t IH]; intros [| j] H; simpl in *;
    try discriminate H.
  - injection H as <-. reflexivity.
  - apply IH; exact H.
Qed.

Lemma findIndex_some {A} (p : A -> bool) (l : list A) (i : nat) :
  findIndex p l = Some i -> exists a, nth_error l i = Some a /\ p a = true.
Proof.
  revert i. induction l as [| b t IH]; intros i H; simpl in *;
    [discriminate H |].
  destruct (p b) eqn:Eb.
  - injection H as <-. exists b. split; [reflexivity | exact Eb].
  - destruct (findIndex p t) as [j |]; [| discriminate H].
    injection H as <-. exact (IH j eq_refl).
Qed.

Lemma findIndex_none {A} (p : A -> bool) (l : list A) :
  findIndex p l = None -> forall a, In a l -> p a = false.
Proof.
  induction l as [| b t IH]; intros H a Ha; simpl in *; [contradiction |].
  destruct (p b) eqn:Eb; [discriminate H |].
  destruct (findIndex p t); [discriminate H |].
  destruct Ha as [<- | Ha]; [exact Eb | exact (IH eq_refl a Ha)].
Qed.

Lemma leaveCurrent_keeps (sid : String.string) (L : list Lobby) :
  Forall lobbyOk L ->
  Forall lobbyOk (leaveCurrent sid L)
  /\ map lobby_id (leaveCurrent sid L) = map lobby_id L.
Proof.
  intros H. unfold leaveCurrent.
  destruct (findIndex (hasPlayer sid) L); [| split; [exact H | reflexivity]].
  split.
  - apply Forall_updateAt; [intros l; apply leaveLobby_ok | exact H].
  - apply map_updateAt_same. intros l. apply leaveLobby_sockets.
Qed.

Lemma addPlayer_ok (s n f : String.string) (l : Lobby) :
  lobbyOk l -> (List.length (players l) < 2)%nat ->
  lobbyOk (addPlayer s n f l).
Proof.
  intros [Ht Hs] Hlen. unfold addPlayer, lobbyOk. cbn [players status].
  destruct (players l) as [| a [| b t]]; simpl in *; try lia.
  - split; [auto |]. intros H. apply Hs in H. discriminate H.
  - destruct Ht as [Ht | [Ht | Ht]]; try discriminate Ht.
    injection Ht as ->. split; [auto | reflexivity].
Qed.

Lemma allSockets_addPlayer (s n f : String.string) (j : nat)
    (L : list Lobby) (l : Lobby) :
  nth_error L j = Some l ->
  Permutation (allSockets (updateAt j (addPlayer s n f) L))
              (s :: allSockets L).
Proof.
  revert j. induction L as [| a t IH]; intros [| j] H; simpl in H;
    try discriminate H.
  - injection H as ->. cbn [updateAt]. rewrite !allSockets_cons.
    unfold addPlayer, lobbySockets at 1. cbn [players].
    rewrite map_app. simpl map. rewrite <- app_assoc. simpl app.
    fold (lobbySockets l).
    apply Permutation_sym, Permutation_middle.
  - rewrite updateAt_cons_S, !allSockets_cons.
    eapply perm_trans;
      [apply Permutation_app_head, (IH j H) | ].
    apply Permutation_sym, Permutation_middle.
Qed.

Lemma setStatus_ok (st : LobbyStatus) (l : Lobby) :
  st <> status_playing -> lobbyOk l -> lobbyOk (setStatus st l).
Proof.
  intros Hst [Ht _]. split; [exact Ht |]. cbn. intros H. contradiction.
Qed.

Lemma initialLobbies_ok : serverOk initialLobbies.
Proof.
  unfold serverOk, initialLobbies.
  generalize (seq 1 TOTAL_LOBBIES) as l. intros l.
  split; [| split; [| reflexivity]].
  - induction l; simpl; constructor; auto.
    split; [left; reflexivity | intros H; discriminate H].
  - replace (allSockets (map (fun i => mkLobby (Z.of_nat i) [] status_waiting) l))
      with (@nil String.string); [constructor |].
    induction l; simpl; auto.
Qed.

Lemma joinLobby_ok (s n f : String.string) (i : Z) (L : list Lobby) :
  serverOk L -> serverOk (fst (joinLobby s n f i L)).
Proof.
  intros [Hok [Hnd Hid]]. unfold joinLobby.
  destruct (findIndex _ L) as [j |]; [| repeat split; assumption].
  cbv zeta.
  destruct (leaveCurrent_keeps s L Hok) as [Hok1 Hid1].
  pose proof (allSockets_leaveCurrent s L Hnd) as Hs1.
  assert (Hnd1 : NoDup (allSockets (leaveCurrent s L)))
    by (rewrite Hs1; apply NoDup_filter; exact Hnd).
  assert (Hout : ~ In s (allSockets (leaveCurrent s L)))
    by (rewrite Hs1; apply otherSocket_filter_not_in).
  assert (H1 : serverOk (leaveCurrent s L))
    by (repeat split; [exact Hok1 | exact Hnd1 | congruence]).
  destruct (nth_error (leaveCurrent s L) j) as [l |] eqn:En; [| exact H1].
  destruct (2 <=? List.length (players l))%nat eqn:E2; [exact H1 |].
  apply Nat.leb_gt in E2. cbn [fst].
  split; [| split].
  - apply Forall_updateAt_nth; [exact Hok1 |].
    intros l' Hl'. rewrite En in Hl'. injection Hl' as <-.
    apply addPlayer_ok; [| exact E2].
    rewrite Forall_forall in Hok1. apply Hok1.
    eapply nth_error_In; exact En.
  - eapply Permutation_NoDup;
      [apply Permutation_sym, (allSockets_addPlayer s n f j _ l En) |].
    constructor; assumption.
  - rewrite map_updateAt_same by (intros; reflexivity). congruence.
Qed.

Lemma markStatus_ok (st : LobbyStatus) (s : String.string) (L : list Lobby) :
  st <> status_playing -> serverOk L -> serverOk (markStatus st s L).
Proof.
  intros Hst [Hok [Hnd Hid]]. unfold markStatus.
  destruct (findIndex (hasPlayer s) L); [| repeat split; assumption].
  split; [| split].
  - apply Forall_updateAt; [intros l; apply setStatus_ok; exact Hst | exact Hok].
  - unfold allSockets.
    rewrite flat_map_updateAt_same by (intros; reflexivity). exact Hnd.
  - rewrite map_updateAt_same by (intros; reflexivity). exact Hid.
Qed.

Lemma leaveCurrent_ok (s : String.string) (L : list Lobby) :
  serverOk L -> serverOk (leaveCurrent s L).
Proof.
  intros [Hok [Hnd Hid]].
  destruct (leaveCurrent_keeps s L Hok) as [Hok1 Hid1].
  split; [exact Hok1 | split; [| congruence]].
  rewrite (allSockets_leaveCurrent s L Hnd). apply NoDup_filter. exact Hnd.
Qed.

Lemma serverStep_ok (e : ServerEvent) (L : list Lobby) :
  serverOk L -> serverOk (serverStep e L).
Proof.
  intros H. destruct e; cbn [serverStep].
  - apply joinLobby_ok; exact H.
  - apply leaveCurrent_ok; exact H.
  - apply leaveCurrent_ok; exact H.
  - apply markStatus_ok; [discriminate | exact H].
  - apply markStatus_ok; [discriminate | exact H].
  - exact H.
Qed.

Lemma serverRun_ok (evs : list ServerEvent) (L : list Lobby) :
  serverOk L -> serverOk (serverRun evs L).
Proof.
  revert L. induction evs as [| e rest IH]; intros L H; simpl; [exact H |].
  apply IH, serverStep_ok, H.
Qed.

Lemma lobbyOk_at_most_two (l : Lobby) :
  lobbyOk l -> (List.length (players l) <= 2)%nat.
Proof.
  intros [Ht _]. rewrite <- (length_map player_team).
  destruct Ht as [-> | [-> | ->]]; simpl; lia.
Qed.

(** X26: the lobby manager keeps its lobbies well formed: after any
    sequence of join, leave, disconnect, game-over, return and relay
    requests there are still the 50 lobbies with ids 1 to 50, each has at
    most two players, the first on team 0 and the second on team 1, a
    lobby is [playing] only with two players, and no socket is a player
    of two lobbies or twice of one. *)
Theorem server_lobbies_stay_well_formed (evs : list ServerEvent) :
  let lobbies := serverRun evs initialLobbies in
  map lobby_id lobbies = map Z.of_nat (seq 1 50)
  /\ Forall (fun l => (List.length (players l) <= 2)%nat
                      /\ (map player_team (players l) = []
                          \/ map player_team (players l) = [Red]
                          \/ map player_team (players l) = [Red; Yellow])
                      /\ (status l = status_playing ->
                          List.length (players l) = 2%nat)) lobbies
  /\ NoDup (allSockets lobbies).
Proof.
  cbv zeta.
  destruct (serverRun_ok evs initialLobbies initialLobbies_ok)
    as [Hok [Hnd Hid]].
  split; [| split; [| exact Hnd]].
  - rewrite Hid. unfold initialLobbies. rewrite map_map. reflexivity.
  - eapply Forall_impl; [| exact Hok].
    intros l Hl. split; [apply lobbyOk_at_most_two; exact Hl |].
    destruct Hl as [Ht Hs]. split; assumption.
Qed.

Lemma in_allSockets (t : String.string) (l : Lobby) (L : list Lobby) :
  In l L -> In t (lobbySockets l) -> In t (allSockets L).
Proof.
  intros Hl Ht. unfold allSockets. apply in_flat_map. exists l. auto.
Qed.

(** Without duplicates, the lobby found for a socket is the only lobby it
    is in. *)
Lemma findLobbyByPlayer_unique (t : String.string) (l : Lobby)
    (L : list Lobby) :
  NoDup (allSockets L) -> In l L -> In t (lobbySockets l) ->
  findLobbyByPlayer t L = Some l.
Proof.
  unfold findLobbyByPlayer.
  induction L as [| a rest IH]; intros Hnd Hl Ht; [contradiction |].
  rewrite allSockets_cons in Hnd. simpl.
  destruct (hasPlayer t a) eqn:Eh.
  - destruct Hl as [-> | Hl]; [reflexivity |].
    exfalso. apply hasPlayer_In in Eh.
    apply (NoDup_app_disjoint _ _ t Hnd Eh).
    apply (in_allSockets t l rest Hl Ht).
  - destruct Hl as [-> | Hl].
    + apply hasPlayer_In in Ht. congruence.
    + apply IH; [eapply NoDup_app_remove_l; exact Hnd | exact Hl | exact Ht].
Qed.



Lemma same_ids_nth (L L' : list Lobby) (j : nat) (l0 : Lobby) :
  map lobby_id L' = map lobby_id L -> nth_error L j = Some l0 ->
  exists l, nth_error L' j = Some l /\ lobby_id l = lobby_id l0.
Proof.
  intros Hid Hn.
  assert (H : nth_error (map lobby_id L') j = Some (lobby_id l0))
    by (rewrite Hid; apply map_nth_error; exact Hn).
  rewrite nth_error_map in H.
  destruct (nth_error L' j) as [l |]; [| discriminate H].
  injection H as H. exists l. split; [reflexivity | exact H].
Qed.

(** X29: what [join-lobby] answers.  "Not found" is answered only when
    no lobby has the id, and then nothing changes.  "Full" is answered
    when the lobby holds two players once the caller has left its current
    lobby, and the caller is then a player of no lobby.  Otherwise the
    caller becomes a player of the lobby with the requested id and of no
    other: on team 0 if it is alone there, on team 1 if it is the second
    player, in which case the lobby is [playing]. *)
Theorem join_lobby_outcomes
    (evs : list ServerEvent) (s n f : String.string) (i : Z) :
  let before := serverRun evs initialLobbies in
  let after := fst (joinLobby s n f i before) in
  match snd (joinLobby s n f i before) with
  | JoinNotFound => after = before /\ ~ In i (map lobby_id before)
  | JoinFull =>
      ~ In s (allSockets after)
      /\ exists lob, In lob after /\ lobby_id lob = i
                     /\ List.length (players lob) = 2%nat
  | JoinOk t i' =>
      i' = i
      /\ exists lob,
           In lob after /\ lobby_id lob = i
           /\ findLobbyByPlayer s after = Some lob
           /\ In (mkPlayer s n f t) (players lob)
           /\ (t = Red -> players lob = [mkPlayer s n f Red])
           /\ (t = Yellow -> List.length (players lob) = 2%nat
                             /\ status lob = status_playing)
  end.
Proof.
  cbv zeta.
  pose proof (serverRun_ok evs initialLobbies initialLobbies_ok) as Hsrv.
  set (L := serverRun evs initialLobbies) in *.
  pose proof (joinLobby_ok s n f i L Hsrv) as Hafter.
  destruct Hsrv as [Hok [Hnd Hid]].
  revert Hafter. unfold joinLobby.
  destruct (findIndex (fun l => Z.eqb (lobby_id l) i) L) as [j |] eqn:Ej.
  2:{ intros _. cbn. split; [reflexivity |].
      intros Hin. apply in_map_iff in Hin. destruct Hin as [l [Hl Hin]].
      pose proof (findIndex_none _ _ Ej l Hin) as Hf. cbv beta in Hf.
      rewrite Hl, Z.eqb_refl in Hf. discriminate Hf. }
  cbv zeta.
  destruct (findIndex_some _ _ _ Ej) as [l0 [Hn0 Hi0]].
  apply Z.eqb_eq in Hi0.
  destruct (leaveCurrent_keeps s L Hok) as [Hok1 Hid1].
  destruct (same_ids_nth L (leaveCurrent s L) j l0 Hid1 Hn0) as [l [Hn Hil]].
  rewrite Hn.
  assert (Hout : ~ In s (allSockets (leaveCurrent s L)))
    by (rewrite (allSockets_leaveCurrent s L Hnd);
        apply otherSocket_filter_not_in).
  assert (Hl1 : In l (leaveCurrent s L)) by (eapply nth_error_In; exact Hn).
  assert (Hlok : lobbyOk l)
    by (rewrite Forall_forall in Hok1; apply Hok1; exact Hl1).
  destruct (2 <=? List.length (players l))%nat eqn:E2.
  - intros _. cbn. split; [exact Hout |].
    exists l. split; [exact Hl1 | split; [congruence |]].
    apply Nat.leb_le in E2. pose proof (lobbyOk_at_most_two l Hlok). lia.
  - apply Nat.leb_gt in E2. cbn [fst snd]. intros [_ [Hnd2 _]].
    split; [reflexivity |].
    exists (addPlayer s n f l).
    assert (Hin2 : In (addPlayer s n f l)
                     (updateAt j (addPlayer s n f) (leaveCurrent s L)))
      by (eapply nth_error_In; apply nth_error_updateAt; exact Hn).
    split; [exact Hin2 |]. split; [cbn; congruence |].
    split.
    { apply findLobbyByPlayer_unique; [exact Hnd2 | exact Hin2 |].
      unfold lobbySockets, addPlayer. cbn [players]. rewrite map_app.
      apply in_or_app. right. left. reflexivity. }
    unfold addPlayer. cbn [players status].
    destruct (players l) as [| a [| b t]]; simpl in E2 |- *; try lia.
    + split; [left; reflexivity |].
      split; [reflexivity | intros H; discriminate H].
    + split; [right; left; reflexivity |].
      split; [intros H; discriminate H | intros _; split; reflexivity].
Qed.
